(** * Transmission-line reflection and quarter-wave matching

    A shallow embedding of [app.py]: the script reads five scalars and a line
    length from the sidebar, builds a 501-point frequency sweep, terminates a
    lossless line with a constant-reflection load, and reads the reflection
    coefficient and the VSWR of the cascade, once for the user's line and
    once for a quarter-wave section of impedance [Zt].

    Python floats are idealised as real numbers and complex128 values as
    pairs of reals; numpy arrays are lists aligned with the sweep.  The
    numpy and scikit-rf calls of the script are modelled in the modules [np]
    and [rf] after the behaviour those libraries document. *)

From Stdlib Require Import Reals Lra Lia List Arith.
Import ListNotations.
Local Open Scope R_scope.

(** ** Complex scalars *)

Module Cx.

Record C : Set := mk { re : R; im : R }.

(** A real operand of a mixed expression is promoted to [x + 0j]. *)
Definition of_R (x : R) : C := mk x 0.

(** The literal [1j]. *)
Definition j : C := mk 0 1.

Definition add (a b : C) : C := mk (re a + re b) (im a + im b).
Definition sub (a b : C) : C := mk (re a - re b) (im a - im b).
Definition mul (a b : C) : C :=
  mk (re a * re b - im a * im b) (re a * im b + im a * re b).
Definition div (a b : C) : C :=
  mk ((re a * re b + im a * im b) / (re b * re b + im b * im b))
     ((im a * re b - re a * im b) / (re b * re b + im b * im b)).

(** [abs] of a complex value: its modulus. *)
Definition abs (a : C) : R := sqrt (re a * re a + im a * im a).

(** [exp] of a complex value. *)
Definition exp (a : C) : C :=
  mk (Rtrigo_def.exp (re a) * cos (im a)) (Rtrigo_def.exp (re a) * sin (im a)).

End Cx.

(** ** numpy *)

Module np.

Definition sqrt (x : R) : R := R_sqrt.sqrt x.
Definition pi : R := PI.

(** [np.linspace(start, stop, num)] with the default [endpoint=True]:
    [arange(num) * step + start] where [step = (stop - start) / (num - 1)],
    and the last sample overwritten with [stop]. *)
Definition linspace (start stop : R) (num : nat) : list R :=
  let step := (stop - start) / INR (num - 1) in
  map (fun k => if Nat.eqb k (num - 1) then stop else INR k * step + start)
      (seq 0 num).

(** [np.ones(n, dtype=complex)]. *)
Definition ones (n : nat) : list Cx.C := repeat (Cx.of_R 1) n.

(** Element-wise binary operation on two arrays of one shape. *)
Fixpoint zip_with {A B D : Type} (op : A -> B -> D) (xs : list A) (ys : list B)
  : list D :=
  match xs, ys with
  | x :: xs', y :: ys' => op x y :: zip_with op xs' ys'
  | _, _ => []
  end.

End np.

(** ** scikit-rf

    The calls the script makes, after the library's documentation.  A
    [Frequency] is a linear sweep.  A medium built without a port impedance
    makes line networks referred to its own [z0].  [a ** b] connects port 2
    of [a] to [b], going through the step between their reference
    impedances when these differ, and the port left free keeps its own
    reference impedance.  Only real reference impedances occur in the
    script. *)

Module rf.

(** [rf.Frequency(start, stop, npoints, unit)]: a linear sweep; [f] holds
    the samples in Hz, the bounds being scaled by the unit's multiplier. *)
Record Frequency : Type := { f : list R }.

Definition GHz : R := 1e9.

Definition mkFrequency (start stop : R) (npoints : nat) (multiplier : R)
  : Frequency :=
  {| f := np.linspace (multiplier * start) (multiplier * stop) npoints |}.

Definition len (fr : Frequency) : nat := length (f fr).

(** The 2x2 scattering matrix of one frequency point. *)
Record S2 : Type := { s11 : Cx.C; s12 : Cx.C; s21 : Cx.C; s22 : Cx.C }.

(** A two-port network: one matrix per frequency point and the reference
    impedance of each port. *)
Record TwoPort : Type := { s2 : list S2; z0_in : R; z0_out : R }.

(** A one-port network [rf.Network(s, frequency, z0)]: [s] is the array
    [s[:, 0, 0]], a reflection coefficient referred to the port impedance
    [z0]. *)
Record OnePort : Type := { s : list Cx.C; z0 : R }.

(** [rf.DefinedGammaZ0(frequency, gamma, z0)]: a medium given by its
    propagation constant and its characteristic impedance.  No separate
    port impedance is passed, so the networks it builds are referred to the
    characteristic impedance itself. *)
Record DefinedGammaZ0 : Type :=
  { frequency : Frequency; gamma : list Cx.C; media_z0 : R }.

(** [media.line(d, unit='m')]: a matched line of physical length [d]:
    [theta = gamma * d], [s21 = s12 = exp(-1 * theta)], [s11 = s22 = 0],
    both ports referred to the medium's [z0]. *)
Definition line_s (g : Cx.C) (d : R) : S2 :=
  let theta := Cx.mul g (Cx.of_R d) in
  let t := Cx.exp (Cx.mul (Cx.of_R (-1)) theta) in
  {| s11 := Cx.of_R 0; s12 := t; s21 := t; s22 := Cx.of_R 0 |}.

Definition line (m : DefinedGammaZ0) (d : R) : TwoPort :=
  {| s2 := map (fun g => line_s g d) (gamma m);
     z0_in := media_z0 m; z0_out := media_z0 m |}.

(** The junction of two real reference impedances [z1] (port 1) and [z2]
    (port 2), which [connect] inserts where the impedances of the joined
    ports differ: [s11 = (z2 - z1)/(z2 + z1)], [s22 = -s11], and the
    reciprocal transmission [2 sqrt(z1 z2)/(z1 + z2)]. *)
Definition impedance_mismatch (z1 z2 : R) : S2 :=
  let g := (z2 - z1) / (z2 + z1) in
  let t := 2 * np.sqrt (z1 * z2) / (z1 + z2) in
  {| s11 := Cx.of_R g; s12 := Cx.of_R t;
     s21 := Cx.of_R t; s22 := Cx.of_R (- g) |}.

(** Port 2 of [a] joined to port 1 of [b]. *)
Definition connect_s (a b : S2) : S2 :=
  let den := Cx.sub (Cx.of_R 1) (Cx.mul (s22 a) (s11 b)) in
  {| s11 := Cx.add (s11 a)
              (Cx.div (Cx.mul (Cx.mul (s12 a) (s11 b)) (s21 a)) den);
     s12 := Cx.div (Cx.mul (s12 a) (s12 b)) den;
     s21 := Cx.div (Cx.mul (s21 a) (s21 b)) den;
     s22 := Cx.add (s22 b)
              (Cx.div (Cx.mul (Cx.mul (s21 b) (s22 a)) (s12 b)) den) |}.

(** Port 2 of [a] closed by the reflection coefficient [gl]. *)
Definition terminate_s (a : S2) (gl : Cx.C) : Cx.C :=
  Cx.add (s11 a)
    (Cx.div (Cx.mul (Cx.mul (s21 a) gl) (s12 a))
            (Cx.sub (Cx.of_R 1) (Cx.mul (s22 a) gl))).

(** [a ** b] for a two-port [a] and a one-port [b]: port 2 of [a] is
    connected to [b], through an impedance mismatch when their reference
    impedances differ.  The remaining port keeps the reference impedance of
    port 1 of [a]. *)
Definition cascade (a : TwoPort) (b : OnePort) : OnePort :=
  let a' :=
    if Req_EM_T (z0_out a) (z0 b) then s2 a
    else map (fun m => connect_s m (impedance_mismatch (z0_out a) (z0 b)))
             (s2 a) in
  {| s := np.zip_with terminate_s a' (s b); z0 := z0_in a |}.

End rf.

(** ** The script *)

(** The sidebar's two ways of giving the line length. *)
Inductive LengthChoice : Type :=
  | LengthInMeters (meters : R)
  | FractionOfLambda (fraction : R).

(** What the sidebar supplies: [fc] in GHz, impedances in ohms. *)
Record Inputs : Type :=
  { fc : R; Z0 : R; er : R; RL : R; XL : R; choice : LengthChoice }.

(** The [min_value]/[max_value] bounds of the sidebar's number inputs. *)
Record widget_ranges (i : Inputs) : Prop :=
  { fc_range : 0.1 <= fc i <= 100;
    Z0_range : 1 <= Z0 i <= 500;
    er_range : 1 <= er i <= 20;
    RL_range : 0.1 <= RL i <= 1000;
    XL_range : -500 <= XL i <= 500;
    length_range :
      match choice i with
      | LengthInMeters m => 0.0001 <= m <= 10
      | FractionOfLambda fr => 0.01 <= fr <= 10
      end }.

(** Lines 22-23: phase velocity in m/s, wavelength at [fc] in metres. *)
Definition vp (i : Inputs) : R := 3e8 / np.sqrt (er i).

Definition lambda_c (i : Inputs) : R := vp i / (fc i * 1e9).

(** Lines 28-32: the line length in metres. *)
Definition length (i : Inputs) : R :=
  match choice i with
  | LengthInMeters m => m
  | FractionOfLambda fraction => fraction * lambda_c i
  end.

(** Lines 37-40: the sweep and the propagation constant of a lossless
    line at each sample. *)
Definition freq (i : Inputs) : rf.Frequency :=
  rf.mkFrequency (fc i - 1) (fc i + 1) 501 rf.GHz.

Definition f (i : Inputs) : list R := rf.f (freq i).

Definition beta (i : Inputs) : list R :=
  map (fun x => 2 * np.pi * x / vp i) (f i).

Definition gamma (i : Inputs) : list Cx.C :=
  map (fun b => Cx.mul Cx.j (Cx.of_R b)) (beta i).

(** Lines 43-49: the load, its reflection coefficient against [Z0], and
    the one-port holding it at every sample. *)
Definition ZL (i : Inputs) : Cx.C :=
  Cx.add (Cx.of_R (RL i)) (Cx.mul Cx.j (Cx.of_R (XL i))).

Definition line (i : Inputs) : rf.DefinedGammaZ0 :=
  {| rf.frequency := freq i; rf.gamma := gamma i; rf.media_z0 := Z0 i |}.

Definition s11 (i : Inputs) : Cx.C :=
  Cx.div (Cx.sub (ZL i) (Cx.of_R (Z0 i))) (Cx.add (ZL i) (Cx.of_R (Z0 i))).

Definition s (i : Inputs) : list Cx.C :=
  map (Cx.mul (s11 i)) (np.ones (rf.len (freq i))).

Definition load (i : Inputs) : rf.OnePort := {| rf.s := s i; rf.z0 := Z0 i |}.

(** Lines 52-56: the line closed by the load, before matching. *)
Definition network_before (i : Inputs) : rf.OnePort :=
  rf.cascade (rf.line (line i) (length i)) (load i).

Definition Gamma_before (i : Inputs) : list Cx.C := rf.s (network_before i).

(** The expression [(1 + abs(G)) / (1 - abs(G))] of one array element. *)
Definition vswr (g : Cx.C) : R := (1 + Cx.abs g) / (1 - Cx.abs g).

Definition VSWR_before (i : Inputs) : list R := map vswr (Gamma_before i).

(** Lines 59-60: the quarter-wave transformer. *)
Definition Zt (i : Inputs) : R := np.sqrt (Z0 i * Cx.abs (ZL i)).

Definition lambda4_length (i : Inputs) : R := lambda_c i / 4.

(** Lines 80-85: the transformer section closed by the same load. *)
Definition transformer (i : Inputs) : rf.DefinedGammaZ0 :=
  {| rf.frequency := freq i; rf.gamma := gamma i; rf.media_z0 := Zt i |}.

Definition network_after (i : Inputs) : rf.OnePort :=
  rf.cascade (rf.line (transformer i) (lambda4_length i)) (load i).

Definition Gamma_after (i : Inputs) : list Cx.C := rf.s (network_after i).

Definition VSWR_after (i : Inputs) : list R := map vswr (Gamma_after i).

(** Line 127: [len(f) // 2]. *)
Definition center_idx (i : Inputs) : nat := (List.length (f i) / 2)%nat.

(** The summary's subscript [arr[center_idx]]; an index outside the array
    would raise. *)
Definition at_center {A : Type} (i : Inputs) (arr : list A) : option A :=
  nth_error arr (center_idx i).

(** ** Vocabulary of the statements *)

(** The physical domain of the inputs: positive frequency and impedances,
    permittivity at least one.  Every division and square root of the
    script is defined on it. *)
Record valid_inputs (i : Inputs) : Prop :=
  { fc_pos : 0 < fc i;
    Z0_pos : 0 < Z0 i;
    er_ge_1 : 1 <= er i;
    RL_pos : 0 < RL i }.

(** The load seen from a real reference impedance [z]. *)
Definition load_ref (i : Inputs) (z : R) : Cx.C :=
  Cx.div (Cx.sub (ZL i) (Cx.of_R z)) (Cx.add (ZL i) (Cx.of_R z)).

(** The factor [exp(-2 theta)], [theta = g * d], by which a line of
    propagation constant [g] and length [d] multiplies the reflection
    coefficient behind it. *)
Definition rotation (g : Cx.C) (d : R) : Cx.C :=
  Cx.exp (Cx.mul (Cx.of_R (-2)) (Cx.mul g (Cx.of_R d))).

(** A reflection coefficient [g] referred to [z_from], read against the
    reference [z_to] instead: the impedance [z_from (1 + g)/(1 - g)] seen
    from [z_to]. *)
Definition referred_to (g : Cx.C) (z_from z_to : R) : Cx.C :=
  let zin := Cx.mul (Cx.of_R z_from)
               (Cx.div (Cx.add (Cx.of_R 1) g) (Cx.sub (Cx.of_R 1) g)) in
  Cx.div (Cx.sub zin (Cx.of_R z_to)) (Cx.add zin (Cx.of_R z_to)).

(** The worked example: 2.4 GHz, a 50 ohm line in air, a real 75 ohm load,
    a quarter of a wavelength of line. *)
Definition scenario : Inputs :=
  {| fc := 2.4; Z0 := 50; er := 1; RL := 75; XL := 0;
     choice := FractionOfLambda 0.25 |}.

(** The same line closed by a load equal to [Z0]. *)
Definition matched_scenario : Inputs :=
  {| fc := 2.4; Z0 := 50; er := 1; RL := 50; XL := 0;
     choice := LengthInMeters 0.02 |}.

(** Line 29: the value the length-in-metres input starts from, which must
    lie within that input's bounds. *)
Definition length_default (i : Inputs) : R := lambda_c i / 4.

(** Line 34: the line length as the sidebar shows it, in wavelengths at
    [fc]. *)
Definition length_in_lambda (i : Inputs) : R := length i / lambda_c i.

(** The worked example on an FR4-like dielectric, the length given in
    metres. *)
Definition scenario_fr4 : Inputs :=
  {| fc := 2.4; Z0 := 50; er := 4.5; RL := 75; XL := 0;
     choice := LengthInMeters 0.02 |}.

(** The sidebar's starting values, an inductive load [75 + 50j], and the
    capacitive load of the same reactance. *)
Definition inductive_load : Inputs :=
  {| fc := 2.4; Z0 := 50; er := 1; RL := 75; XL := 50;
     choice := FractionOfLambda 0.25 |}.

Definition capacitive_load : Inputs :=
  {| fc := 2.4; Z0 := 50; er := 1; RL := 75; XL := -50;
     choice := FractionOfLambda 0.25 |}.

(** The worked example with half a wavelength of line. *)
Definition half_wave_scenario : Inputs :=
  {| fc := 2.4; Z0 := 50; er := 1; RL := 75; XL := 0;
     choice := FractionOfLambda 0.5 |}.

(** The worked example with the length entered in metres at its starting
    value, a quarter of the 12.5 cm wavelength. *)
Definition default_metres_scenario : Inputs :=
  {| fc := 2.4; Z0 := 50; er := 1; RL := 75; XL := 0;
     choice := LengthInMeters 0.03125 |}.

(** ** Proof steps *)

Ltac sq_nonzero H :=
  match goal with
  | |- ?a * ?a + ?b * ?b <> 0 =>
      let Ha := fresh in let Hb := fresh in
      assert (Ha : 0 < a * a) by (apply Rmult_lt_0_compat; exact H);
      assert (Hb : 0 <= b * b) by apply Rle_0_sqr;
      lra
  end.

(** ** Complex arithmetic *)

Lemma Cx_eq (a b : Cx.C) : Cx.re a = Cx.re b -> Cx.im a = Cx.im b -> a = b.
Proof. destruct a, b; simpl; intros -> ->; reflexivity. Qed.

Lemma Cx_mul_one_r (a : Cx.C) : Cx.mul a (Cx.of_R 1) = a.
Proof. apply Cx_eq; simpl; ring. Qed.

Lemma Cx_exp_square (a : Cx.C) :
  Cx.mul (Cx.exp a) (Cx.exp a) = Cx.exp (Cx.mul (Cx.of_R 2) a).
Proof.
  apply Cx_eq; simpl.
  - replace (2 * Cx.re a - 0 * Cx.im a) with (Cx.re a + Cx.re a) by ring.
    replace (2 * Cx.im a + 0 * Cx.re a) with (2 * Cx.im a) by ring.
    rewrite exp_plus, cos_2a. ring.
  - replace (2 * Cx.re a - 0 * Cx.im a) with (Cx.re a + Cx.re a) by ring.
    replace (2 * Cx.im a + 0 * Cx.re a) with (2 * Cx.im a) by ring.
    rewrite exp_plus, sin_2a. ring.
Qed.

Lemma Cx_abs_nonneg (a : Cx.C) : 0 <= Cx.abs a.
Proof. apply sqrt_pos. Qed.

Lemma Cx_abs_mul (a b : Cx.C) : Cx.abs (Cx.mul a b) = Cx.abs a * Cx.abs b.
Proof.
  unfold Cx.abs; simpl. rewrite <- sqrt_mult by nra. f_equal. ring.
Qed.

(** A pure rotation [exp(j t)] has modulus one. *)
Lemma Cx_abs_exp_imag (a : Cx.C) : Cx.re a = 0 -> Cx.abs (Cx.exp a) = 1.
Proof.
  intros Hre. unfold Cx.abs; simpl. rewrite Hre, exp_0.
  replace (1 * cos (Cx.im a) * (1 * cos (Cx.im a)) +
           1 * sin (Cx.im a) * (1 * sin (Cx.im a)))
    with (Rsqr (sin (Cx.im a)) + Rsqr (cos (Cx.im a))) by (unfold Rsqr; ring).
  rewrite sin2_cos2. apply sqrt_1.
Qed.

Lemma Cx_abs_of_R (x : R) : Cx.abs (Cx.of_R x) = Rabs x.
Proof.
  unfold Cx.abs; simpl. replace (x * x + 0 * 0) with (Rsqr x) by (unfold Rsqr; ring).
  apply sqrt_Rsqr_abs.
Qed.

(** ** Arrays *)

Lemma zip_with_map_repeat {A B D E : Type} (op : A -> B -> D) (g : E -> A)
    (c : B) (l : list E) :
  np.zip_with op (map g l) (repeat c (List.length l)) =
  map (fun x => op (g x) c) l.
Proof. induction l as [|x l IH]; simpl; [reflexivity | now rewrite IH]. Qed.

Lemma linspace_length (a b : R) (n : nat) : List.length (np.linspace a b n) = n.
Proof. unfold np.linspace. now rewrite length_map, length_seq. Qed.

Lemma linspace_nth (a b : R) (n k : nat) :
  (k < n)%nat ->
  nth k (np.linspace a b n) 0 =
  if Nat.eqb k (n - 1) then b else INR k * ((b - a) / INR (n - 1)) + a.
Proof.
  intros Hk. unfold np.linspace.
  set (F := fun k : nat => if Nat.eqb k (n - 1) then b
                           else INR k * ((b - a) / INR (n - 1)) + a).
  rewrite (nth_indep _ 0 (F 0%nat)) by now rewrite length_map, length_seq.
  rewrite (map_nth F), seq_nth by assumption. reflexivity.
Qed.

(** ** The line and load cascade, point by point *)

(** A matched line in front of a reflection [gl] rotates it by twice the
    electrical length. *)
Lemma terminate_line (g : Cx.C) (d : R) (gl : Cx.C) :
  rf.terminate_s (rf.line_s g d) gl =
  Cx.mul gl (Cx.exp (Cx.mul (Cx.of_R (-2)) (Cx.mul g (Cx.of_R d)))).
Proof.
  unfold rf.terminate_s, rf.line_s; cbn [rf.s11 rf.s12 rf.s21 rf.s22].
  set (th := Cx.mul g (Cx.of_R d)).
  replace (Cx.mul (Cx.of_R (-2)) th)
    with (Cx.mul (Cx.of_R 2) (Cx.mul (Cx.of_R (-1)) th))
    by (apply Cx_eq; simpl; ring).
  rewrite <- Cx_exp_square.
  set (t := Cx.exp (Cx.mul (Cx.of_R (-1)) th)).
  apply Cx_eq; simpl; field.
Qed.

(** Closing the line behind an impedance junction: the junction's view of
    the load, rotated by the line. *)
Lemma connect_line (g : Cx.C) (d : R) (m : rf.S2) :
  let t := Cx.exp (Cx.mul (Cx.of_R (-1)) (Cx.mul g (Cx.of_R d))) in
  rf.connect_s (rf.line_s g d) m =
  {| rf.s11 := Cx.mul (Cx.mul t (rf.s11 m)) t;
     rf.s12 := Cx.mul t (rf.s12 m);
     rf.s21 := Cx.mul t (rf.s21 m);
     rf.s22 := rf.s22 m |}.
Proof.
  intros t. unfold rf.connect_s, rf.line_s; cbn [rf.s11 rf.s12 rf.s21 rf.s22].
  fold t. f_equal; apply Cx_eq; simpl; field.
Qed.

Lemma terminate_connect_line (g : Cx.C) (d : R) (m : rf.S2) (gl : Cx.C) :
  rf.terminate_s (rf.connect_s (rf.line_s g d) m) gl =
  Cx.mul (rf.terminate_s m gl)
    (Cx.exp (Cx.mul (Cx.of_R (-2)) (Cx.mul g (Cx.of_R d)))).
Proof.
  rewrite connect_line.
  set (th := Cx.mul g (Cx.of_R d)).
  replace (Cx.mul (Cx.of_R (-2)) th)
    with (Cx.mul (Cx.of_R 2) (Cx.mul (Cx.of_R (-1)) th))
    by (apply Cx_eq; simpl; ring).
  rewrite <- Cx_exp_square.
  set (t := Cx.exp (Cx.mul (Cx.of_R (-1)) th)).
  unfold rf.terminate_s; cbn [rf.s11 rf.s12 rf.s21 rf.s22].
  apply Cx_eq; simpl; unfold Rdiv; ring.
Qed.

(** The junction between [z1] and [z2] turns a reflection coefficient
    referred to [z2] into the one of the same impedance [r + jx] referred to
    [z1]. *)
Lemma terminate_mismatch (z1 z2 r x : R) :
  0 < z1 -> 0 < z2 -> 0 < r ->
  rf.terminate_s (rf.impedance_mismatch z1 z2)
    (Cx.div (Cx.sub (Cx.mk r x) (Cx.of_R z2))
            (Cx.add (Cx.mk r x) (Cx.of_R z2))) =
  Cx.div (Cx.sub (Cx.mk r x) (Cx.of_R z1)) (Cx.add (Cx.mk r x) (Cx.of_R z1)).
Proof.
  intros H1 H2 Hr.
  unfold rf.terminate_s, rf.impedance_mismatch; cbn [rf.s11 rf.s12 rf.s21 rf.s22].
  assert (Hq : np.sqrt (z1 * z2) * np.sqrt (z1 * z2) = z1 * z2)
    by (apply sqrt_sqrt; nra).
  set (q := np.sqrt (z1 * z2)) in *.
  assert (Hq2 : q ^ 2 = z1 * z2) by (rewrite <- Hq; ring).
  assert (Hd1 : (r + z1) * (r + z1) + x * x <> 0) by nra.
  assert (Hd2 : (r + z2) * (r + z2) + x * x <> 0) by nra.
  assert (Hd3 : z2 + z1 <> 0) by lra.
  assert (HA : 0 < (z2 + z1) * ((r + z2) * (r + z2) + x * x) -
                 - (z2 - z1) * ((r - z2) * (r + z2) + x * x)).
  { replace ((z2 + z1) * ((r + z2) * (r + z2) + x * x) -
               - (z2 - z1) * ((r - z2) * (r + z2) + x * x))
      with (2 * z2 * (r * r + r * z2 + x * x) + 2 * z1 * z2 * (r + z2)) by ring.
    assert (0 < z1 * z2) by nra. assert (0 < r * z2) by nra. nra. }
  apply Cx_eq; simpl.
  - field_simplify_eq; [rewrite Hq2; ring|].
    repeat split; try assumption. sq_nonzero HA.
  - field_simplify_eq; [rewrite Hq2; ring|].
    repeat split; try assumption. sq_nonzero HA.
Qed.

(** ** The script's arrays in closed form *)

Lemma ZL_eq (i : Inputs) : ZL i = Cx.mk (RL i) (XL i).
Proof. unfold ZL. apply Cx_eq; simpl; ring. Qed.

Lemma f_length (i : Inputs) : List.length (f i) = 501%nat.
Proof. apply linspace_length. Qed.

Lemma gamma_length (i : Inputs) : List.length (gamma i) = List.length (f i).
Proof. unfold gamma, beta. now rewrite !length_map. Qed.

Lemma s_eq (i : Inputs) : s i = repeat (s11 i) (List.length (f i)).
Proof.
  unfold s, np.ones, rf.len, f. rewrite map_repeat, Cx_mul_one_r. reflexivity.
Qed.

Lemma Gamma_before_eq (i : Inputs) :
  Gamma_before i = map (fun g => Cx.mul (s11 i) (rotation g (length i))) (gamma i).
Proof.
  unfold Gamma_before, network_before, rf.cascade, rf.line, load, line;
    cbn [rf.s rf.z0 rf.z0_out rf.z0_in rf.s2 rf.gamma rf.media_z0].
  destruct (Req_EM_T (Z0 i) (Z0 i)) as [_|Hne]; [|contradiction].
  rewrite s_eq, <- gamma_length, zip_with_map_repeat.
  apply map_ext. intros g. apply terminate_line.
Qed.

Lemma ZL_abs_pos (i : Inputs) : 0 < RL i -> 0 < Cx.abs (ZL i).
Proof.
  intros Hr. rewrite ZL_eq. unfold Cx.abs; simpl. apply sqrt_lt_R0. nra.
Qed.

Lemma Zt_pos (i : Inputs) : 0 < Z0 i -> 0 < RL i -> 0 < Zt i.
Proof.
  intros Hz Hr. unfold Zt, np.sqrt. apply sqrt_lt_R0.
  apply Rmult_lt_0_compat; [assumption | now apply ZL_abs_pos].
Qed.

(** After the transformer the reflection coefficient is the load's, referred
    to [Zt], rotated by the quarter-wave section. *)
Lemma Gamma_after_eq (i : Inputs) :
  0 < Z0 i -> 0 < RL i ->
  Gamma_after i =
  map (fun g => Cx.mul (load_ref i (Zt i)) (rotation g (lambda4_length i)))
      (gamma i).
Proof.
  intros Hz Hr. pose proof (Zt_pos i Hz Hr) as Ht.
  unfold Gamma_after, network_after, rf.cascade, rf.line, load, transformer;
    cbn [rf.s rf.z0 rf.z0_out rf.z0_in rf.s2 rf.gamma rf.media_z0].
  rewrite s_eq, <- gamma_length.
  destruct (Req_EM_T (Zt i) (Z0 i)) as [He|Hne].
  - rewrite zip_with_map_repeat. apply map_ext. intros g.
    rewrite terminate_line. unfold load_ref, s11. now rewrite He.
  - rewrite map_map, zip_with_map_repeat. apply map_ext. intros g.
    rewrite terminate_connect_line. f_equal.
    unfold s11, load_ref. rewrite ZL_eq. now apply terminate_mismatch.
Qed.

(** ** The sweep *)

Lemma f_nth (i : Inputs) (k : nat) :
  (k < 501)%nat -> nth k (f i) 0 = 1e9 * (fc i - 1) + INR k * 4e6.
Proof.
  intros Hk. unfold f, freq, rf.mkFrequency, rf.GHz; cbn [rf.f].
  rewrite linspace_nth by assumption.
  change (501 - 1)%nat with 500%nat.
  assert (H500 : INR 500 = 500) by (rewrite INR_IZR_INZ; reflexivity).
  rewrite H500.
  destruct (Nat.eqb_spec k 500) as [->|Hne].
  - rewrite H500. lra.
  - lra.
Qed.

Lemma center_idx_eq (i : Inputs) : center_idx i = 250%nat.
Proof. unfold center_idx. rewrite f_length. reflexivity. Qed.

Lemma f_center (i : Inputs) : nth (center_idx i) (f i) 0 = fc i * 1e9.
Proof.
  rewrite center_idx_eq, f_nth by lia.
  replace (INR 250) with 250 by (rewrite INR_IZR_INZ; reflexivity). lra.
Qed.

Lemma nth_map_lt {A B : Type} (F : A -> B) (l : list A) (k : nat) (a : A) (b : B) :
  (k < List.length l)%nat -> nth k (map F l) b = F (nth k l a).
Proof.
  intros Hk. rewrite (nth_indep _ b (F a)) by now rewrite length_map.
  apply map_nth.
Qed.

Lemma gamma_nth (i : Inputs) (k : nat) :
  (k < 501)%nat ->
  nth k (gamma i) (Cx.of_R 0) =
  Cx.mul Cx.j (Cx.of_R (2 * PI * nth k (f i) 0 / vp i)).
Proof.
  intros Hk. unfold gamma, beta. rewrite map_map.
  rewrite (nth_map_lt _ _ _ 0) by now rewrite f_length. reflexivity.
Qed.

Lemma gamma_imaginary (i : Inputs) (g : Cx.C) : In g (gamma i) -> Cx.re g = 0.
Proof.
  unfold gamma. rewrite in_map_iff. intros [b [<- _]]. simpl. ring.
Qed.

(** A lossless line only turns the phase. *)
Lemma rotation_abs (g : Cx.C) (d : R) : Cx.re g = 0 -> Cx.abs (rotation g d) = 1.
Proof.
  intros Hg. unfold rotation. apply Cx_abs_exp_imag. simpl. rewrite Hg. ring.
Qed.

Lemma Gamma_before_abs (i : Inputs) :
  Forall (fun g => Cx.abs g = Cx.abs (s11 i)) (Gamma_before i).
Proof.
  rewrite Gamma_before_eq, Forall_map, Forall_forall. intros g Hg.
  rewrite Cx_abs_mul, rotation_abs by now apply (gamma_imaginary i). ring.
Qed.

Lemma Gamma_after_abs (i : Inputs) :
  0 < Z0 i -> 0 < RL i ->
  Forall (fun g => Cx.abs g = Cx.abs (load_ref i (Zt i))) (Gamma_after i).
Proof.
  intros Hz Hr. rewrite Gamma_after_eq, Forall_map, Forall_forall by assumption.
  intros g Hg.
  rewrite Cx_abs_mul, rotation_abs by now apply (gamma_imaginary i). ring.
Qed.

Lemma Gamma_before_length (i : Inputs) : List.length (Gamma_before i) = 501%nat.
Proof. now rewrite Gamma_before_eq, length_map, gamma_length, f_length. Qed.

Lemma Gamma_after_length (i : Inputs) :
  0 < Z0 i -> 0 < RL i -> List.length (Gamma_after i) = 501%nat.
Proof.
  intros Hz Hr.
  now rewrite Gamma_after_eq, length_map, gamma_length, f_length.
Qed.

(** ** Real loads *)

Lemma load_ref_real (i : Inputs) (z : R) :
  XL i = 0 -> 0 < RL i -> 0 < z ->
  load_ref i z = Cx.of_R ((RL i - z) / (RL i + z)).
Proof.
  intros Hx Hr Hz. unfold load_ref. rewrite ZL_eq, Hx.
  apply Cx_eq; simpl; field; nra.
Qed.

Lemma Cx_abs_div (a b : Cx.C) :
  0 < Cx.abs b -> Cx.abs (Cx.div a b) = Cx.abs a / Cx.abs b.
Proof.
  intros Hb. unfold Cx.abs in *.
  set (D := Cx.re b * Cx.re b + Cx.im b * Cx.im b) in *.
  assert (HD : 0 < D).
  { destruct (Rle_or_lt D 0) as [Hle|Hlt]; [|exact Hlt].
    rewrite (sqrt_neg_0 D Hle) in Hb. lra. }
  rewrite <- sqrt_div_alt by exact HD. f_equal. simpl. unfold D in *. field. lra.
Qed.

Lemma vswr_of_zero : vswr (Cx.of_R 0) = 1.
Proof. unfold vswr. rewrite Cx_abs_of_R, Rabs_R0. field. Qed.

Lemma vswr_ge_1 (g : Cx.C) : Cx.abs g < 1 -> 1 <= vswr g.
Proof.
  intros Hg. pose proof (Cx_abs_nonneg g) as H0. unfold vswr.
  apply (Rmult_le_reg_r (1 - Cx.abs g)); [lra|].
  unfold Rdiv. rewrite Rmult_assoc, Rinv_l by lra. lra.
Qed.

(** A passive load on a positive reference impedance reflects less than it
    receives. *)
Lemma load_ref_abs_lt_1 (i : Inputs) (z : R) :
  0 < RL i -> 0 < z ->
  0 < Cx.abs (Cx.add (ZL i) (Cx.of_R z)) /\ Cx.abs (load_ref i z) < 1.
Proof.
  intros Hr Hz.
  assert (Hden : 0 < Cx.abs (Cx.add (ZL i) (Cx.of_R z))).
  { rewrite ZL_eq. unfold Cx.abs; simpl. apply sqrt_lt_R0. nra. }
  split; [exact Hden|].
  unfold load_ref. rewrite Cx_abs_div by exact Hden.
  apply (Rmult_lt_reg_r (Cx.abs (Cx.add (ZL i) (Cx.of_R z)))); [exact Hden|].
  unfold Rdiv. rewrite Rmult_assoc, Rinv_l, Rmult_1_r, Rmult_1_l by lra.
  rewrite ZL_eq. unfold Cx.abs; simpl.
  assert (0 < RL i * z) by (apply Rmult_lt_0_compat; lra).
  pose proof (Rle_0_sqr (RL i - z)) as S1.
  pose proof (Rle_0_sqr (XL i)) as S2. unfold Rsqr in S1, S2.
  apply sqrt_lt_1_alt. split; lra.
Qed.

(** ** Centre-frequency snapshot *)

Lemma at_center_f (i : Inputs) : at_center i (f i) = Some (fc i * 1e9).
Proof.
  unfold at_center. rewrite (nth_error_nth' _ 0), f_center; [reflexivity|].
  rewrite center_idx_eq, f_length. lia.
Qed.

Lemma at_center_gamma (i : Inputs) :
  at_center i (gamma i) =
  Some (Cx.mul Cx.j (Cx.of_R (2 * np.pi * (fc i * 1e9) / vp i))).
Proof.
  unfold at_center, gamma, beta. rewrite map_map, nth_error_map.
  fold (at_center i (f i)). rewrite at_center_f. reflexivity.
Qed.

Lemma at_center_Gamma_before (i : Inputs) :
  at_center i (Gamma_before i) =
  Some (Cx.mul (s11 i)
          (rotation (Cx.mul Cx.j (Cx.of_R (2 * np.pi * (fc i * 1e9) / vp i)))
                    (length i))).
Proof.
  unfold at_center. rewrite Gamma_before_eq, nth_error_map.
  fold (at_center i (gamma i)). rewrite at_center_gamma. reflexivity.
Qed.

Lemma at_center_Gamma_after (i : Inputs) :
  0 < Z0 i -> 0 < RL i ->
  at_center i (Gamma_after i) =
  Some (Cx.mul (load_ref i (Zt i))
          (rotation (Cx.mul Cx.j (Cx.of_R (2 * np.pi * (fc i * 1e9) / vp i)))
                    (lambda4_length i))).
Proof.
  intros Hz Hr. unfold at_center. rewrite Gamma_after_eq, nth_error_map by assumption.
  fold (at_center i (gamma i)). rewrite at_center_gamma. reflexivity.
Qed.

Lemma vp_pos (i : Inputs) : 1 <= er i -> 0 < vp i <= 3e8.
Proof.
  intros He. unfold vp, np.sqrt.
  assert (H1 : 1 <= sqrt (er i)).
  { rewrite <- sqrt_1 at 1. apply sqrt_le_1; lra. }
  split.
  - apply Rdiv_lt_0_compat; lra.
  - apply (Rmult_le_reg_r (sqrt (er i))); [lra|].
    unfold Rdiv. rewrite Rmult_assoc, Rinv_l by lra. nra.
Qed.

(** The rotation of a lossless line, [gamma = j beta], in components. *)
Lemma rotation_j (b d : R) :
  rotation (Cx.mul Cx.j (Cx.of_R b)) d =
  Cx.mk (cos (2 * b * d)) (- sin (2 * b * d)).
Proof.
  unfold rotation, Cx.exp. apply Cx_eq; simpl.
  - match goal with
    | |- Rtrigo_def.exp ?A * cos ?B = _ =>
        replace A with 0 by ring; replace B with (- (2 * b * d)) by ring
    end.
    rewrite exp_0, cos_neg. ring.
  - match goal with
    | |- Rtrigo_def.exp ?A * sin ?B = _ =>
        replace A with 0 by ring; replace B with (- (2 * b * d)) by ring
    end.
    rewrite exp_0, sin_neg. ring.
Qed.

(** At the centre frequency the quarter-wave section turns the reflection
    coefficient by half a turn. *)
Lemma rotation_quarter_wave (i : Inputs) :
  1 <= er i -> 0 < fc i ->
  rotation (Cx.mul Cx.j (Cx.of_R (2 * np.pi * (fc i * 1e9) / vp i)))
           (lambda4_length i) = Cx.of_R (-1).
Proof.
  intros He Hf. pose proof (vp_pos i He) as [Hv _].
  rewrite rotation_j.
  replace (2 * (2 * np.pi * (fc i * 1e9) / vp i) * lambda4_length i) with PI
    by (unfold lambda4_length, lambda_c, np.pi; field; lra).
  rewrite cos_PI, sin_PI. apply Cx_eq; simpl; ring.
Qed.

(** ** Inputs *)

Lemma widget_ranges_positive (i : Inputs) :
  widget_ranges i -> valid_inputs i.
Proof. intros [Hf Hz He Hr _ _]. constructor; lra. Qed.

Lemma widget_ranges_scenario : widget_ranges scenario.
Proof. constructor; simpl; lra. Qed.

Lemma valid_inputs_scenario : valid_inputs scenario.
Proof. constructor; simpl; lra. Qed.

Lemma valid_inputs_matched_scenario : valid_inputs matched_scenario.
Proof. constructor; simpl; lra. Qed.

Lemma ZL_abs_real (i : Inputs) : XL i = 0 -> 0 < RL i -> Cx.abs (ZL i) = RL i.
Proof.
  intros Hx Hr. rewrite ZL_eq, Hx. unfold Cx.abs; simpl.
  replace (RL i * RL i + 0 * 0) with (Rsqr (RL i)) by (unfold Rsqr; ring).
  apply sqrt_Rsqr. lra.
Qed.

(** The quarter-wave impedance [sqrt(z r)] is closer to the load [r] than
    the line impedance [z] is. *)
Lemma geometric_mean_reflects_less (r z : R) :
  0 < r -> 0 < z -> r <> z ->
  Rabs ((r - sqrt (z * r)) / (r + sqrt (z * r))) < Rabs ((r - z) / (r + z)).
Proof.
  intros Hr Hz Hne.
  set (u := sqrt r). set (v := sqrt z).
  assert (Hu : 0 < u) by (apply sqrt_lt_R0; exact Hr).
  assert (Hv : 0 < v) by (apply sqrt_lt_R0; exact Hz).
  assert (Hru : r = u * u) by (symmetry; apply sqrt_sqrt; lra).
  assert (Hzv : z = v * v) by (symmetry; apply sqrt_sqrt; lra).
  assert (Ht : sqrt (z * r) = v * u) by (apply sqrt_mult; lra).
  assert (Huv : u <> v) by (intros E; apply Hne; rewrite Hru, Hzv, E; ring).
  assert (Hp : 0 < u * v) by (apply Rmult_lt_0_compat; assumption).
  assert (Hs : 0 < u * u + v * v) by nra.
  rewrite Ht, Hru, Hzv.
  set (X := / (u + v)). set (Y := (u + v) * / (u * u + v * v)).
  assert (HX : 0 < X) by (apply Rinv_0_lt_compat; lra).
  assert (HXY : 0 < Y - X).
  { replace (Y - X) with (2 * (u * v) / ((u + v) * (u * u + v * v)))
      by (unfold X, Y; field; lra).
    apply Rdiv_lt_0_compat; [lra|]. apply Rmult_lt_0_compat; lra. }
  replace ((u * u - v * u) / (u * u + v * u)) with ((u - v) * X)
    by (unfold X; field; split; lra).
  replace ((u * u - v * v) / (u * u + v * v)) with ((u - v) * Y)
    by (unfold Y; field; lra).
  apply Rsqr_lt_abs_0. unfold Rsqr.
  assert (Hd : 0 < (u - v) * (u - v)).
  { destruct (Rdichotomy _ _ Huv); nra. }
  assert (Hyx : 0 < (Y - X) * (Y + X)) by (apply Rmult_lt_0_compat; lra).
  pose proof (Rmult_lt_0_compat _ _ Hd Hyx). lra.
Qed.

Lemma Zt_scenario : Zt scenario = sqrt (50 * 75) /\ 61.23 < Zt scenario < 61.25.
Proof.
  assert (E : Zt scenario = sqrt (50 * 75)).
  { unfold Zt, np.sqrt. rewrite ZL_abs_real by (simpl; lra). reflexivity. }
  split; [exact E|]. rewrite E. split.
  - rewrite <- (sqrt_square 61.23) by lra. apply sqrt_lt_1; lra.
  - rewrite <- (sqrt_square 61.25) by lra. apply sqrt_lt_1; lra.
Qed.

(** After matching too the divisor [1 - |Gamma|] is positive and the VSWR is
    at least one, at every sample. *)
Lemma VSWR_after_ge_1 (i : Inputs) :
  valid_inputs i ->
  Forall (fun g => 0 < 1 - Cx.abs g) (Gamma_after i) /\
  Forall (fun v => 1 <= v) (VSWR_after i).
Proof.
  intros [Hf Hz He Hr]. pose proof (Zt_pos i Hz Hr) as Ht.
  destruct (load_ref_abs_lt_1 i (Zt i) Hr Ht) as [_ Hlt].
  assert (Hg : Forall (fun g => Cx.abs g < 1) (Gamma_after i)).
  { eapply Forall_impl; [|now apply Gamma_after_abs]. intros g ->. exact Hlt. }
  split.
  - eapply Forall_impl; [|exact Hg]. intros g Hg1. simpl in Hg1. lra.
  - unfold VSWR_after. rewrite Forall_map.
    eapply Forall_impl; [|exact Hg]. intros g Hg1. now apply vswr_ge_1.
Qed.

(** What the script reads at the centre index after matching, in the worked
    example: the 75 ohm load seen from [Zt], turned by half a turn. *)
Lemma scenario_Gamma_after_center :
  at_center scenario (Gamma_after scenario) =
  Some (Cx.of_R ((Zt scenario - 75) / (Zt scenario + 75))).
Proof.
  destruct Zt_scenario as [_ [Hlo Hhi]].
  rewrite at_center_Gamma_after by (simpl; lra).
  rewrite rotation_quarter_wave by (simpl; lra).
  rewrite load_ref_real by (simpl; lra). f_equal.
  apply Cx_eq; simpl; field; lra.
Qed.

(** Read against [Z0] instead of [Zt], that same reflection coefficient is
    zero: the transformer does match the load to the line. *)
Lemma scenario_matched_against_Z0 :
  referred_to (Cx.of_R ((Zt scenario - 75) / (Zt scenario + 75)))
              (Zt scenario) (Z0 scenario) = Cx.of_R 0.
Proof.
  destruct Zt_scenario as [E [Hlo Hhi]].
  assert (Hsq : Zt scenario * Zt scenario = 3750).
  { rewrite E. replace 3750 with (50 * 75) by lra. apply sqrt_sqrt. lra. }
  set (t := Zt scenario) in *.
  assert (Hsq2 : t ^ 2 = 3750) by (rewrite <- Hsq; ring).
  unfold referred_to. apply Cx_eq; simpl.
  - field_simplify_eq; [rewrite ?Hsq2; nra|]. repeat split; nra.
  - field_simplify_eq; [rewrite ?Hsq2; nra|]. repeat split; nra.
Qed.

(** ** The claims *)

(** C1: in the scenario [fc = 2.4], [Z0 = 50], [er = 1], [RL = 75],
    [XL = 0] the transformer impedance is [sqrt(50 * 75)], about 61.24.  The
    network after matching is referred to that impedance, and the reflection
    coefficient the script reads at the centre index is
    [(Zt - 75)/(Zt + 75)], of magnitude about 0.101, with a VSWR of about
    1.2247: not zero and not one. *)
Theorem C1_scenario_after_matching :
  Zt scenario = sqrt (50 * 75) /\
  61.23 < Zt scenario < 61.25 /\
  rf.z0 (network_after scenario) = Zt scenario /\
  exists g v,
    at_center scenario (Gamma_after scenario) = Some g /\
    at_center scenario (VSWR_after scenario) = Some v /\
    g = Cx.of_R ((Zt scenario - 75) / (Zt scenario + 75)) /\
    0.1009 < Cx.abs g < 0.1011 /\
    1.224 < v < 1.225.
Proof.
  destruct Zt_scenario as [E [Hlo Hhi]].
  pose proof scenario_Gamma_after_center as Hg.
  assert (Ha : Cx.abs (Cx.of_R ((Zt scenario - 75) / (Zt scenario + 75))) =
               (75 - Zt scenario) / (75 + Zt scenario)).
  { rewrite Cx_abs_of_R, Rabs_left1.
    - field; lra.
    - apply Rmult_le_reg_r with (Zt scenario + 75); [lra|].
      unfold Rdiv. rewrite Rmult_assoc, Rinv_l by lra. lra. }
  assert (Hb : 0.1009 < (75 - Zt scenario) / (75 + Zt scenario) < 0.1011).
  { split; apply Rmult_lt_reg_r with (75 + Zt scenario); try lra;
      unfold Rdiv; rewrite Rmult_assoc, Rinv_l by lra; lra. }
  split; [exact E|]. split; [split; assumption|]. split; [reflexivity|].
  eexists. eexists. split; [exact Hg|].
  split.
  { unfold at_center, VSWR_after. rewrite nth_error_map.
    fold (at_center scenario (Gamma_after scenario)). rewrite Hg. reflexivity. }
  split; [reflexivity|].
  rewrite Ha. split; [exact Hb|].
  unfold vswr. rewrite Ha.
  set (a := (75 - Zt scenario) / (75 + Zt scenario)) in *.
  split; apply Rmult_lt_reg_r with (1 - a); try lra;
    unfold Rdiv; rewrite Rmult_assoc, Rinv_l by lra; lra.
Qed.

(** C2: before matching, the reflection coefficient at every sample [x] of
    the sweep is the load's reflection coefficient relative to [Z0],
    [(ZL - Z0)/(ZL + Z0)], times [exp(-2 theta)] with
    [theta = gamma * length] and [gamma = j * 2 pi x / vp], for either way of
    giving the line length. *)
Theorem C2_before_is_rotated_load (i : Inputs) :
  valid_inputs i ->
  List.length (Gamma_before i) = List.length (f i) /\
  s11 i = Cx.div (Cx.sub (ZL i) (Cx.of_R (Z0 i)))
                 (Cx.add (ZL i) (Cx.of_R (Z0 i))) /\
  forall (k : nat) (x : R),
    nth_error (f i) k = Some x ->
    nth_error (gamma i) k = Some (Cx.mul Cx.j (Cx.of_R (2 * PI * x / vp i))) /\
    nth_error (Gamma_before i) k =
      Some (Cx.mul (s11 i)
              (Cx.exp (Cx.mul (Cx.of_R (-2))
                         (Cx.mul (Cx.mul Cx.j (Cx.of_R (2 * PI * x / vp i)))
                                 (Cx.of_R (length i)))))).
Proof.
  intros _.
  split; [now rewrite Gamma_before_length, f_length|].
  split; [reflexivity|].
  intros k x Hk.
  assert (Hg : nth_error (gamma i) k =
               Some (Cx.mul Cx.j (Cx.of_R (2 * PI * x / vp i)))).
  { unfold gamma, beta. rewrite map_map, nth_error_map, Hk. reflexivity. }
  split; [exact Hg|].
  rewrite Gamma_before_eq, nth_error_map, Hg. reflexivity.
Qed.

Lemma C2_before_is_rotated_load_witness :
  valid_inputs scenario /\
  nth_error (Gamma_before scenario) 250 =
    Some (Cx.mul (s11 scenario)
            (Cx.exp (Cx.mul (Cx.of_R (-2))
                       (Cx.mul (Cx.mul Cx.j
                                  (Cx.of_R (2 * PI * (fc scenario * 1e9)
                                            / vp scenario)))
                               (Cx.of_R (length scenario)))))).
Proof.
  split; [exact valid_inputs_scenario|].
  destruct (C2_before_is_rotated_load scenario valid_inputs_scenario)
    as (_ & _ & Hk).
  exact (proj2 (Hk 250%nat (fc scenario * 1e9) (at_center_f scenario))).
Defined.

(** C3: for a valid real load different from [Z0], the magnitude of the
    reflection coefficient read at the centre index after matching is
    strictly smaller than the one read there before matching. *)
Theorem C3_matching_reduces_reflection (i : Inputs) :
  valid_inputs i -> XL i = 0 -> RL i <> Z0 i ->
  exists ga gb : Cx.C,
    at_center i (Gamma_after i) = Some ga /\
    at_center i (Gamma_before i) = Some gb /\
    Cx.abs ga < Cx.abs gb.
Proof.
  intros [Hf Hz He Hr] Hx Hne.
  eexists. eexists.
  split; [now apply at_center_Gamma_after|].
  split; [apply at_center_Gamma_before|].
  rewrite !Cx_abs_mul, !rotation_abs by (simpl; ring).
  rewrite !Rmult_1_r.
  change (s11 i) with (load_ref i (Z0 i)).
  rewrite !load_ref_real, !Cx_abs_of_R by (try assumption; now apply Zt_pos).
  unfold Zt, np.sqrt. rewrite ZL_abs_real by assumption.
  now apply geometric_mean_reflects_less.
Qed.

Lemma C3_matching_reduces_reflection_witness :
  (valid_inputs scenario /\ XL scenario = 0 /\ RL scenario <> Z0 scenario) /\
  exists ga gb : Cx.C,
    at_center scenario (Gamma_after scenario) = Some ga /\
    at_center scenario (Gamma_before scenario) = Some gb /\
    Cx.abs ga < Cx.abs gb.
Proof.
  assert (Hx : XL scenario = 0) by reflexivity.
  assert (Hne : RL scenario <> Z0 scenario) by (simpl; lra).
  split; [split; [exact valid_inputs_scenario | split; assumption]|].
  exact (C3_matching_reduces_reflection scenario valid_inputs_scenario Hx Hne).
Defined.

(** C4: for a valid real load the magnitude of the reflection coefficient
    before matching is [|(RL - Z0)/(RL + Z0)|] at each of the 501 samples,
    for either way of giving the line length; when moreover [RL = Z0],
    every sample is zero and every VSWR sample is one. *)
Theorem C4_before_magnitude_flat (i : Inputs) :
  valid_inputs i -> XL i = 0 ->
  List.length (Gamma_before i) = 501%nat /\
  List.length (VSWR_before i) = 501%nat /\
  Forall (fun g => Cx.abs g = Rabs ((RL i - Z0 i) / (RL i + Z0 i)))
         (Gamma_before i) /\
  (RL i = Z0 i ->
   Forall (fun g => g = Cx.of_R 0) (Gamma_before i) /\
   Forall (fun v => v = 1) (VSWR_before i)).
Proof.
  intros [Hf Hz He Hr] Hx.
  assert (Hs : s11 i = Cx.of_R ((RL i - Z0 i) / (RL i + Z0 i))).
  { change (s11 i) with (load_ref i (Z0 i)). now apply load_ref_real. }
  split; [apply Gamma_before_length|].
  split; [unfold VSWR_before; rewrite length_map; apply Gamma_before_length|].
  split.
  - eapply Forall_impl; [|apply Gamma_before_abs].
    intros g ->. now rewrite Hs, Cx_abs_of_R.
  - intros Hm.
    assert (Hg : Forall (fun g => g = Cx.of_R 0) (Gamma_before i)).
    { rewrite Gamma_before_eq, Forall_map, Forall_forall. intros g _.
      rewrite Hs, Hm. apply Cx_eq; simpl; field; lra. }
    split; [exact Hg|].
    unfold VSWR_before. rewrite Forall_map.
    eapply Forall_impl; [|exact Hg]. intros g ->. apply vswr_of_zero.
Qed.

Lemma C4_before_magnitude_flat_witness :
  (valid_inputs scenario /\ XL scenario = 0) /\
  Forall (fun g => Cx.abs g = Rabs ((75 - 50) / (75 + 50)))
         (Gamma_before scenario) /\
  (valid_inputs matched_scenario /\ XL matched_scenario = 0 /\
   RL matched_scenario = Z0 matched_scenario) /\
  Forall (fun g => g = Cx.of_R 0) (Gamma_before matched_scenario) /\
  Forall (fun v => v = 1) (VSWR_before matched_scenario).
Proof.
  destruct (C4_before_magnitude_flat scenario valid_inputs_scenario eq_refl)
    as (_ & _ & Ha & _).
  destruct (C4_before_magnitude_flat matched_scenario
              valid_inputs_matched_scenario eq_refl) as (_ & _ & _ & Hm).
  destruct (Hm eq_refl) as [Hg Hv].
  split; [split; [exact valid_inputs_scenario | reflexivity]|].
  split; [exact Ha|].
  split; [split; [exact valid_inputs_matched_scenario | split; reflexivity]|].
  split; assumption.
Defined.

(** C5: for valid inputs the load reflection coefficient is the single
    complex number [(ZL - Z0)/(ZL + Z0)] with [ZL = RL + j XL], and the load
    network holds that same number at each of the 501 frequency samples. *)
Theorem C5_load_reflection_constant (i : Inputs) :
  valid_inputs i ->
  s11 i = Cx.div (Cx.sub (Cx.mk (RL i) (XL i)) (Cx.of_R (Z0 i)))
                 (Cx.add (Cx.mk (RL i) (XL i)) (Cx.of_R (Z0 i))) /\
  Cx.re (s11 i) = ((RL i - Z0 i) * (RL i + Z0 i) + XL i * XL i)
                  / ((RL i + Z0 i) * (RL i + Z0 i) + XL i * XL i) /\
  Cx.im (s11 i) = (2 * XL i * Z0 i)
                  / ((RL i + Z0 i) * (RL i + Z0 i) + XL i * XL i) /\
  rf.s (load i) = repeat (s11 i) 501 /\
  forall k : nat, (k < 501)%nat -> nth_error (rf.s (load i)) k = Some (s11 i).
Proof.
  intros _.
  assert (Hs : rf.s (load i) = repeat (s11 i) 501).
  { cbn [load rf.s]. now rewrite s_eq, f_length. }
  split; [unfold s11; now rewrite ZL_eq|].
  split; [|split; [|split; [exact Hs|]]].
  - unfold s11. rewrite ZL_eq. cbn [Cx.div Cx.sub Cx.add Cx.of_R Cx.re Cx.im].
    unfold Rdiv. f_equal; [ring | f_equal; ring].
  - unfold s11. rewrite ZL_eq. cbn [Cx.div Cx.sub Cx.add Cx.of_R Cx.re Cx.im].
    unfold Rdiv. f_equal; [ring | f_equal; ring].
  - intros k Hk. rewrite Hs. now apply nth_error_repeat.
Qed.

Lemma C5_load_reflection_constant_witness :
  valid_inputs scenario /\
  Cx.re (s11 scenario) = ((75 - 50) * (75 + 50) + 0 * 0)
                         / ((75 + 50) * (75 + 50) + 0 * 0) /\
  Cx.im (s11 scenario) = (2 * 0 * 50) / ((75 + 50) * (75 + 50) + 0 * 0) /\
  rf.s (load scenario) = repeat (s11 scenario) 501.
Proof.
  destruct (C5_load_reflection_constant scenario valid_inputs_scenario)
    as (_ & Hre & Him & Hs & _).
  split; [exact valid_inputs_scenario|].
  split; [exact Hre|]. split; [exact Him | exact Hs].
Defined.

(** C6: for valid inputs the transformer impedance is the real number
    [sqrt(Z0 * |ZL|)] and the transformer's length is a quarter of the
    centre wavelength, a quarter turn of phase at the centre frequency;
    both are closed-form expressions of the inputs. *)
Theorem C6_transformer_design (i : Inputs) :
  valid_inputs i ->
  Zt i = sqrt (Z0 i * sqrt (RL i * RL i + XL i * XL i)) /\
  Zt i * Zt i = Z0 i * Cx.abs (ZL i) /\
  0 < Zt i /\
  lambda4_length i = lambda_c i / 4 /\
  lambda4_length i = 3e8 / sqrt (er i) / (fc i * 1e9) / 4 /\
  2 * PI * (fc i * 1e9) / vp i * lambda4_length i = PI / 2 /\
  rf.media_z0 (transformer i) = Zt i.
Proof.
  intros [Hf Hz He Hr]. pose proof (vp_pos i He) as [Hv _].
  pose proof (ZL_abs_pos i Hr) as Ha.
  split; [unfold Zt; now rewrite ZL_eq|].
  split; [unfold Zt, np.sqrt; apply sqrt_sqrt; nra|].
  split; [now apply Zt_pos|].
  split; [reflexivity|]. split; [reflexivity|].
  split; [|reflexivity].
  unfold lambda4_length, lambda_c. field. lra.
Qed.

Lemma C6_transformer_design_witness :
  valid_inputs scenario /\
  Zt scenario * Zt scenario = Z0 scenario * Cx.abs (ZL scenario) /\
  0 < Zt scenario /\
  lambda4_length scenario = lambda_c scenario / 4 /\
  2 * PI * (fc scenario * 1e9) / vp scenario * lambda4_length scenario = PI / 2.
Proof.
  destruct (C6_transformer_design scenario valid_inputs_scenario)
    as (_ & Hsq & Hpos & Hl & _ & Hq & _).
  split; [exact valid_inputs_scenario|].
  repeat split; assumption.
Defined.

(** C7: for [er >= 1] and [fc > 0] (in GHz) the phase velocity is
    [3e8 / sqrt er] and the centre wavelength is [vp] over the centre
    frequency in Hz. *)
Theorem C7_velocity_wavelength (i : Inputs) :
  1 <= er i -> 0 < fc i ->
  vp i = 3e8 / sqrt (er i) /\
  lambda_c i = vp i / (fc i * 1e9) /\
  vp i * vp i * er i = 3e8 * 3e8 /\
  lambda_c i * (fc i * 1e9) = vp i /\
  0 < vp i /\ 0 < lambda_c i.
Proof.
  intros He Hf. pose proof (vp_pos i He) as [Hv _].
  split; [reflexivity|]. split; [reflexivity|].
  split; [|split; [|split; [exact Hv|]]].
  - unfold vp, np.sqrt.
    assert (Hs : sqrt (er i) * sqrt (er i) = er i) by (apply sqrt_sqrt; lra).
    assert (Hp : 0 < sqrt (er i)) by (apply sqrt_lt_R0; lra).
    rewrite <- Hs at 3. field. lra.
  - unfold lambda_c. field. lra.
  - unfold lambda_c. apply Rdiv_lt_0_compat; lra.
Qed.

Lemma C7_velocity_wavelength_witness :
  (1 <= er scenario /\ 0 < fc scenario) /\
  vp scenario = 3e8 / sqrt (er scenario) /\
  lambda_c scenario = vp scenario / (fc scenario * 1e9) /\
  vp scenario * vp scenario * er scenario = 3e8 * 3e8 /\
  lambda_c scenario * (fc scenario * 1e9) = vp scenario /\
  0 < vp scenario /\ 0 < lambda_c scenario.
Proof.
  assert (He : 1 <= er scenario) by (simpl; lra).
  assert (Hf : 0 < fc scenario) by (simpl; lra).
  split; [split; assumption|].
  exact (C7_velocity_wavelength scenario He Hf).
Defined.

(** C8: whatever the centre frequency, the sweep has exactly 501 samples,
    strictly increasing, from [fc - 1] GHz to [fc + 1] GHz; the centre index
    is 250, the sample there is [fc] itself, half way between the two ends,
    and the summary reads the arrays at that index. *)
Theorem C8_sweep (i : Inputs) :
  List.length (f i) = 501%nat /\
  (forall k l, (k < l)%nat -> (l < 501)%nat -> nth k (f i) 0 < nth l (f i) 0) /\
  nth_error (f i) 0 = Some ((fc i - 1) * 1e9) /\
  nth_error (f i) 500 = Some ((fc i + 1) * 1e9) /\
  center_idx i = 250%nat /\
  at_center i (f i) = Some (fc i * 1e9) /\
  fc i * 1e9 - (fc i - 1) * 1e9 = (fc i + 1) * 1e9 - fc i * 1e9 /\
  at_center i (Gamma_before i) = nth_error (Gamma_before i) 250 /\
  at_center i (VSWR_before i) = nth_error (VSWR_before i) 250 /\
  at_center i (Gamma_after i) = nth_error (Gamma_after i) 250 /\
  at_center i (VSWR_after i) = nth_error (VSWR_after i) 250.
Proof.
  split; [apply f_length|].
  split.
  { intros k l Hkl Hl. rewrite !f_nth by lia. apply lt_INR in Hkl. lra. }
  split.
  { rewrite (nth_error_nth' _ 0) by (rewrite f_length; lia).
    rewrite f_nth by lia. f_equal. simpl. lra. }
  split.
  { rewrite (nth_error_nth' _ 0) by (rewrite f_length; lia).
    rewrite f_nth by lia. f_equal.
    replace (INR 500) with 500 by (rewrite INR_IZR_INZ; reflexivity). lra. }
  split; [apply center_idx_eq|].
  split; [apply at_center_f|].
  split; [lra|].
  unfold at_center. rewrite center_idx_eq. repeat split; reflexivity.
Qed.

(** C10: inside the sidebar's ranges ([RL >= 0.1], [Z0 >= 1]) the
    denominator [ZL + Z0] is not zero, the load reflection coefficient has
    magnitude below one, and so at every sample before matching
    [1 - |Gamma|] is positive and the VSWR is at least one. *)
Theorem C10_before_vswr_well_defined (i : Inputs) :
  widget_ranges i ->
  Cx.add (ZL i) (Cx.of_R (Z0 i)) <> Cx.of_R 0 /\
  0 < Cx.re (Cx.add (ZL i) (Cx.of_R (Z0 i)))
      * Cx.re (Cx.add (ZL i) (Cx.of_R (Z0 i)))
      + Cx.im (Cx.add (ZL i) (Cx.of_R (Z0 i)))
        * Cx.im (Cx.add (ZL i) (Cx.of_R (Z0 i))) /\
  Cx.abs (s11 i) < 1 /\
  List.length (VSWR_before i) = 501%nat /\
  Forall (fun g => 0 < 1 - Cx.abs g) (Gamma_before i) /\
  Forall (fun v => 1 <= v) (VSWR_before i).
Proof.
  intros Hw. destruct (widget_ranges_positive i Hw) as [Hf Hz He Hr].
  destruct (load_ref_abs_lt_1 i (Z0 i) Hr Hz) as [Hden Hlt].
  change (load_ref i (Z0 i)) with (s11 i) in Hlt.
  assert (Hg : Forall (fun g => Cx.abs g < 1) (Gamma_before i)).
  { eapply Forall_impl; [|apply Gamma_before_abs]. intros g ->. exact Hlt. }
  split.
  { intros E. rewrite E, Cx_abs_of_R, Rabs_R0 in Hden. lra. }
  split.
  { rewrite ZL_eq. simpl. nra. }
  split; [exact Hlt|].
  split; [unfold VSWR_before; rewrite length_map; apply Gamma_before_length|].
  split.
  - eapply Forall_impl; [|exact Hg]. intros g Hg1. simpl in Hg1. lra.
  - unfold VSWR_before. rewrite Forall_map.
    eapply Forall_impl; [|exact Hg]. intros g Hg1. now apply vswr_ge_1.
Qed.

Lemma C10_before_vswr_well_defined_witness :
  widget_ranges scenario /\
  Cx.abs (s11 scenario) < 1 /\
  Forall (fun g => 0 < 1 - Cx.abs g) (Gamma_before scenario) /\
  Forall (fun v => 1 <= v) (VSWR_before scenario).
Proof.
  destruct (C10_before_vswr_well_defined scenario widget_ranges_scenario)
    as (_ & _ & Hlt & _ & Hg & Hv).
  split; [exact widget_ranges_scenario|].
  split; [exact Hlt|]. split; assumption.
Defined.

(** ** Further properties of the script *)

Lemma lambda_c_bounds (i : Inputs) :
  widget_ranges i -> 0.00066 < lambda_c i <= 3.
Proof.
  intros [Hf _ He _ _ _].
  assert (Hs1 : 1 <= sqrt (er i)).
  { rewrite <- sqrt_1 at 1. apply sqrt_le_1; lra. }
  assert (Hs2 : sqrt (er i) < 4.5).
  { rewrite <- (sqrt_square 4.5) by lra. apply sqrt_lt_1; lra. }
  assert (Hv : vp i * sqrt (er i) = 3e8).
  { unfold vp, np.sqrt. field. lra. }
  assert (Hv0 : 0 < vp i) by (apply vp_pos; lra).
  assert (Hl : lambda_c i * (fc i * 1e9) = vp i).
  { unfold lambda_c. field. lra. }
  assert (Hl0 : 0 < lambda_c i).
  { unfold lambda_c. apply Rdiv_lt_0_compat; lra. }
  assert (Hvlo : 6.6e7 < vp i) by nra.
  assert (Hvhi : vp i <= 3e8) by nra.
  split; nra.
Qed.

(** X1: for every input the sidebar admits, the wavelength at [fc] lies
    between 0.66 mm and 3 m, so the starting value [lambda_c / 4] of the
    length-in-metres input is inside that input's bounds [0.0001, 10]. *)
Theorem X1_length_default_in_bounds (i : Inputs) :
  widget_ranges i ->
  0.00066 < lambda_c i <= 3 /\
  0.0001 <= length_default i <= 10 /\
  length_default i = lambda4_length i.
Proof.
  intros Hw. pose proof (lambda_c_bounds i Hw) as [Hlo Hhi].
  split; [split; assumption|].
  split; [unfold length_default; lra | reflexivity].
Qed.

Lemma X1_length_default_in_bounds_witness :
  widget_ranges scenario /\
  0.00066 < lambda_c scenario <= 3 /\
  0.0001 <= length_default scenario <= 10 /\
  length_default scenario = lambda4_length scenario.
Proof.
  split; [exact widget_ranges_scenario|].
  exact (X1_length_default_in_bounds scenario widget_ranges_scenario).
Defined.

(** X2: for every input the sidebar admits the line length is positive and
    at most 30 m; given as a fraction of the wavelength, the length shown
    back in wavelengths is that fraction, and given in metres, the shown
    number of wavelengths times the wavelength is the length entered. *)
Theorem X2_length_round_trip (i : Inputs) :
  widget_ranges i ->
  0 < length i <= 30 /\
  (forall fr, choice i = FractionOfLambda fr -> length_in_lambda i = fr) /\
  (forall m, choice i = LengthInMeters m ->
             length i = m /\ length_in_lambda i * lambda_c i = m).
Proof.
  intros Hw. pose proof (lambda_c_bounds i Hw) as [Hlo Hhi].
  destruct Hw as [_ _ _ _ _ Hlen].
  unfold length_in_lambda, length. destruct (choice i) as [m|fr].
  - split; [lra|]. split; [discriminate|].
    intros m' [= <-]. split; [reflexivity | field; lra].
  - split; [nra|]. split; [|discriminate].
    intros fr' [= <-]. field. lra.
Qed.

Lemma X2_length_round_trip_witness :
  widget_ranges scenario /\
  0 < length scenario <= 30 /\
  length_in_lambda scenario = 0.25.
Proof.
  destruct (X2_length_round_trip scenario widget_ranges_scenario)
    as (Hpos & Hfr & _).
  split; [exact widget_ranges_scenario|].
  split; [exact Hpos | exact (Hfr 0.25 eq_refl)].
Defined.

Lemma f_In (i : Inputs) (x : R) :
  In x (f i) <->
  exists k, (k < 501)%nat /\ x = 1e9 * (fc i - 1) + INR k * 4e6.
Proof.
  split.
  - intros Hx. destruct (In_nth _ _ 0 Hx) as (k & Hk & <-).
    rewrite f_length in Hk. exists k. split; [exact Hk | now apply f_nth].
  - intros (k & Hk & ->). rewrite <- (f_nth i k Hk).
    apply nth_In. now rewrite f_length.
Qed.

(** X3: the sweep holds only positive frequencies exactly when [fc] is above
    1 GHz; the sidebar admits [fc] down to 0.1 GHz, where the sweep starts
    below zero. *)
Theorem X3_sweep_positive_iff (i : Inputs) :
  (Forall (fun x => 0 < x) (f i) <-> 1 < fc i) /\
  (fc i < 1 -> exists x, nth_error (f i) 0 = Some x /\ x < 0).
Proof.
  assert (H0 : nth_error (f i) 0 = Some (1e9 * (fc i - 1))).
  { rewrite (nth_error_nth' _ 0) by (rewrite f_length; lia).
    rewrite f_nth by lia. f_equal. simpl. lra. }
  split; [split|].
  - intros Hall. rewrite Forall_forall in Hall.
    apply nth_error_In in H0. specialize (Hall _ H0). lra.
  - intros Hfc. apply Forall_forall. intros x Hx.
    apply f_In in Hx. destruct Hx as (k & _ & ->).
    pose proof (pos_INR k). nra.
  - intros Hfc. eexists. split; [exact H0 | lra].
Qed.


Lemma vswr_abs_eq (g h : Cx.C) : Cx.abs g = Cx.abs h -> vswr g = vswr h.
Proof. unfold vswr. now intros ->. Qed.

Lemma Forall_eq_repeat {A : Type} (l : list A) (a : A) :
  Forall (fun x => x = a) l -> l = repeat a (List.length l).
Proof.
  induction 1 as [|x l Hx _ IH]; simpl; [reflexivity|]. now rewrite Hx, <- IH.
Qed.

Lemma load_ref_abs (i : Inputs) (z : R) :
  0 < RL i -> 0 < z ->
  Cx.abs (load_ref i z) =
  sqrt ((RL i - z) * (RL i - z) + XL i * XL i)
  / sqrt ((RL i + z) * (RL i + z) + XL i * XL i).
Proof.
  intros Hr Hz. destruct (load_ref_abs_lt_1 i z Hr Hz) as [Hden _].
  unfold load_ref. rewrite Cx_abs_div by exact Hden.
  rewrite ZL_eq. unfold Cx.abs; simpl.
  f_equal; [f_equal; ring | f_equal; f_equal; ring].
Qed.

Lemma VSWR_before_repeat (i : Inputs) :
  VSWR_before i = repeat (vswr (s11 i)) 501.
Proof.
  rewrite <- (Gamma_before_length i), <- (length_map vswr).
  apply Forall_eq_repeat. unfold VSWR_before. rewrite Forall_map.
  eapply Forall_impl; [|apply Gamma_before_abs].
  intros g Hg. now apply vswr_abs_eq.
Qed.

Lemma VSWR_after_repeat (i : Inputs) :
  0 < Z0 i -> 0 < RL i ->
  VSWR_after i = repeat (vswr (load_ref i (Zt i))) 501.
Proof.
  intros Hz Hr.
  rewrite <- (Gamma_after_length i Hz Hr), <- (length_map vswr).
  apply Forall_eq_repeat. unfold VSWR_after. rewrite Forall_map.
  eapply Forall_impl; [|now apply Gamma_after_abs].
  intros g Hg. now apply vswr_abs_eq.
Qed.

(** X5: for every valid load, reactive or not, the magnitude of the
    reflection coefficient before matching is the same at all 501 samples,
    [|ZL - Z0| / |ZL + Z0|], and so the VSWR array before matching is one
    value repeated 501 times. *)
Theorem X5_before_flat_any_load (i : Inputs) :
  valid_inputs i ->
  Forall (fun g => Cx.abs g =
            sqrt ((RL i - Z0 i) * (RL i - Z0 i) + XL i * XL i)
            / sqrt ((RL i + Z0 i) * (RL i + Z0 i) + XL i * XL i))
         (Gamma_before i) /\
  VSWR_before i = repeat (vswr (s11 i)) 501.
Proof.
  intros [Hf Hz He Hr]. split; [|apply VSWR_before_repeat].
  eapply Forall_impl; [|apply Gamma_before_abs].
  intros g ->. change (s11 i) with (load_ref i (Z0 i)). now apply load_ref_abs.
Qed.

Lemma X5_before_flat_any_load_witness :
  valid_inputs scenario /\
  VSWR_before scenario = repeat (vswr (s11 scenario)) 501.
Proof.
  split; [exact valid_inputs_scenario|].
  exact (proj2 (X5_before_flat_any_load scenario valid_inputs_scenario)).
Defined.

(** X6: for every valid load the network after matching is referred to
    [Zt]; the magnitude of its reflection coefficient is the same at all
    501 samples, [|ZL - Zt| / |ZL + Zt|], below one, so the VSWR array after
    matching is one value, at least one, repeated 501 times. *)
Theorem X6_after_flat_any_load (i : Inputs) :
  valid_inputs i ->
  rf.z0 (network_after i) = Zt i /\
  List.length (Gamma_after i) = 501%nat /\
  Forall (fun g => Cx.abs g =
            sqrt ((RL i - Zt i) * (RL i - Zt i) + XL i * XL i)
            / sqrt ((RL i + Zt i) * (RL i + Zt i) + XL i * XL i) /\
            Cx.abs g < 1)
         (Gamma_after i) /\
  VSWR_after i = repeat (vswr (load_ref i (Zt i))) 501 /\
  1 <= vswr (load_ref i (Zt i)).
Proof.
  intros [Hf Hz He Hr]. pose proof (Zt_pos i Hz Hr) as Ht.
  destruct (load_ref_abs_lt_1 i (Zt i) Hr Ht) as [_ Hlt].
  split; [reflexivity|].
  split; [now apply Gamma_after_length|].
  split; [|split; [now apply VSWR_after_repeat | now apply vswr_ge_1]].
  eapply Forall_impl; [|now apply Gamma_after_abs].
  intros g ->. split; [now apply load_ref_abs | exact Hlt].
Qed.

Lemma X6_after_flat_any_load_witness :
  valid_inputs scenario /\
  List.length (Gamma_after scenario) = 501%nat /\
  VSWR_after scenario = repeat (vswr (load_ref scenario (Zt scenario))) 501 /\
  1 <= vswr (load_ref scenario (Zt scenario)).
Proof.
  destruct (X6_after_flat_any_load scenario valid_inputs_scenario)
    as (_ & Hl & _ & Hv & H1).
  split; [exact valid_inputs_scenario|]. repeat split; assumption.
Defined.

(** The VSWR of a real load [r] on a real reference [z]: the larger of the
    two over the smaller. *)
Lemma vswr_real_ratio (r z : R) :
  0 < r -> 0 < z ->
  vswr (Cx.of_R ((r - z) / (r + z))) = Rmax r z / Rmin r z.
Proof.
  intros Hr Hz. unfold vswr. rewrite Cx_abs_of_R.
  destruct (Rle_dec z r) as [Hle|Hgt].
  - rewrite Rmax_left, Rmin_right by lra.
    rewrite Rabs_right.
    + field. lra.
    + apply Rle_ge. apply Rmult_le_pos; [lra|].
      apply Rlt_le, Rinv_0_lt_compat. lra.
  - rewrite Rmax_right, Rmin_left by lra.
    rewrite Rabs_left.
    + field. lra.
    + apply Ropp_lt_cancel. rewrite Ropp_0.
      replace (- ((r - z) / (r + z))) with ((z - r) / (r + z)) by (field; lra).
      apply Rdiv_lt_0_compat; lra.
Qed.

(** X7: for a valid real load the VSWR before matching is, at every sample,
    the larger of [RL] and [Z0] over the smaller. *)
Theorem X7_before_vswr_real_load (i : Inputs) :
  valid_inputs i -> XL i = 0 ->
  VSWR_before i = repeat (Rmax (RL i) (Z0 i) / Rmin (RL i) (Z0 i)) 501.
Proof.
  intros [Hf Hz He Hr] Hx. rewrite VSWR_before_repeat.
  change (s11 i) with (load_ref i (Z0 i)).
  now rewrite load_ref_real, vswr_real_ratio.
Qed.

Lemma X7_before_vswr_real_load_witness :
  (valid_inputs scenario /\ XL scenario = 0) /\
  VSWR_before scenario = repeat (Rmax 75 50 / Rmin 75 50) 501.
Proof.
  split; [split; [exact valid_inputs_scenario | reflexivity]|].
  exact (X7_before_vswr_real_load scenario valid_inputs_scenario eq_refl).
Defined.

(** X8: for a valid real load the VSWR the script reports after matching
    is, at every sample, the square root of the VSWR before matching; it
    lies between one and the VSWR before matching. *)
Theorem X8_after_vswr_is_sqrt_of_before (i : Inputs) :
  valid_inputs i -> XL i = 0 ->
  VSWR_after i =
    repeat (sqrt (Rmax (RL i) (Z0 i) / Rmin (RL i) (Z0 i))) 501 /\
  1 <= sqrt (Rmax (RL i) (Z0 i) / Rmin (RL i) (Z0 i))
    <= Rmax (RL i) (Z0 i) / Rmin (RL i) (Z0 i).
Proof.
  intros [Hf Hz He Hr] Hx. pose proof (Zt_pos i Hz Hr) as Ht.
  assert (Hsq : Zt i * Zt i = Z0 i * RL i).
  { unfold Zt, np.sqrt. rewrite ZL_abs_real by assumption.
    apply sqrt_sqrt. nra. }
  assert (Hv : vswr (load_ref i (Zt i)) =
               sqrt (Rmax (RL i) (Z0 i) / Rmin (RL i) (Z0 i))).
  { rewrite load_ref_real, vswr_real_ratio by assumption.
    symmetry. apply sqrt_lem_1.
    - apply Rlt_le, Rdiv_lt_0_compat.
      + apply Rmax_case; assumption.
      + apply Rmin_case; assumption.
    - apply Rlt_le, Rdiv_lt_0_compat.
      + apply Rmax_case; assumption.
      + apply Rmin_case; assumption.
    - destruct (Rle_dec (Z0 i) (RL i)) as [Hle|Hgt].
      + assert (Zt i <= RL i) by nra.
        rewrite !Rmax_left, !Rmin_right by lra. field_simplify_eq; [nra | lra].
      + assert (RL i < Zt i) by nra.
        rewrite !Rmax_right, !Rmin_left by lra. field_simplify_eq; [nra | lra]. }
  split; [rewrite VSWR_after_repeat by assumption; now rewrite Hv|].
  set (vb := Rmax (RL i) (Z0 i) / Rmin (RL i) (Z0 i)).
  assert (Hvb : 1 <= vb).
  { unfold vb. destruct (Rle_dec (Z0 i) (RL i)) as [Hle|Hgt].
    - rewrite Rmax_left, Rmin_right by lra.
      apply (Rmult_le_reg_r (Z0 i)); [lra|].
      unfold Rdiv. rewrite Rmult_assoc, Rinv_l by lra. lra.
    - rewrite Rmax_right, Rmin_left by lra.
      apply (Rmult_le_reg_r (RL i)); [lra|].
      unfold Rdiv. rewrite Rmult_assoc, Rinv_l by lra. lra. }
  assert (H1 : 1 <= sqrt vb).
  { rewrite <- sqrt_1 at 1. apply sqrt_le_1; lra. }
  split; [exact H1|].
  assert (Hs : sqrt vb * sqrt vb = vb) by (apply sqrt_sqrt; lra).
  nra.
Qed.

Lemma X8_after_vswr_is_sqrt_of_before_witness :
  (valid_inputs scenario /\ XL scenario = 0) /\
  VSWR_after scenario = repeat (sqrt (Rmax 75 50 / Rmin 75 50)) 501 /\
  1 <= sqrt (Rmax 75 50 / Rmin 75 50) <= Rmax 75 50 / Rmin 75 50.
Proof.
  split; [split; [exact valid_inputs_scenario | reflexivity]|].
  exact (X8_after_vswr_is_sqrt_of_before scenario valid_inputs_scenario eq_refl).
Defined.

Lemma valid_inputs_scenario_fr4 : valid_inputs scenario_fr4.
Proof. constructor; simpl; lra. Qed.

Lemma valid_inputs_inductive_load : valid_inputs inductive_load.
Proof. constructor; simpl; lra. Qed.

Lemma valid_inputs_capacitive_load : valid_inputs capacitive_load.
Proof. constructor; simpl; lra. Qed.

Lemma valid_inputs_half_wave_scenario : valid_inputs half_wave_scenario.
Proof. constructor; simpl; lra. Qed.

(** After matching, the phase turned at the sample [x] is [pi x / fc]: the
    phase velocity cancels between the propagation constant and the
    quarter wavelength. *)
Lemma Gamma_after_closed (i : Inputs) :
  valid_inputs i ->
  Gamma_after i =
  map (fun x => Cx.mul (load_ref i (Zt i))
                  (Cx.mk (cos (PI * x / (fc i * 1e9)))
                         (- sin (PI * x / (fc i * 1e9)))))
      (f i).
Proof.
  intros [Hf Hz He Hr]. pose proof (vp_pos i He) as [Hv _].
  rewrite Gamma_after_eq by assumption. unfold gamma, beta. rewrite !map_map.
  apply map_ext. intros x. rewrite rotation_j.
  replace (2 * (2 * np.pi * x / vp i) * lambda4_length i)
    with (PI * x / (fc i * 1e9))
    by (unfold lambda4_length, lambda_c, np.pi; field; lra).
  reflexivity.
Qed.

(** X9: the reflection coefficient and the VSWR after matching depend
    neither on the permittivity nor on the line length entered: two valid
    inputs with the same [fc], [Z0], [RL] and [XL] give the same arrays. *)
Theorem X9_after_independent_of_er_and_length (i i' : Inputs) :
  valid_inputs i -> valid_inputs i' ->
  fc i = fc i' -> Z0 i = Z0 i' -> RL i = RL i' -> XL i = XL i' ->
  Gamma_after i = Gamma_after i' /\ VSWR_after i = VSWR_after i'.
Proof.
  intros Hi Hi' Hfc Hz Hr Hx.
  assert (Hg : Gamma_after i = Gamma_after i').
  { rewrite !Gamma_after_closed by assumption.
    unfold load_ref, Zt, ZL, f, freq. now rewrite Hfc, Hz, Hr, Hx. }
  split; [exact Hg|]. unfold VSWR_after. now rewrite Hg.
Qed.

Lemma X9_after_independent_of_er_and_length_witness :
  (valid_inputs scenario /\ valid_inputs scenario_fr4 /\
   er scenario <> er scenario_fr4 /\ length scenario <> length scenario_fr4) /\
  Gamma_after scenario = Gamma_after scenario_fr4 /\
  VSWR_after scenario = VSWR_after scenario_fr4.
Proof.
  split.
  - split; [exact valid_inputs_scenario|].
    split; [exact valid_inputs_scenario_fr4|].
    split; [simpl; lra|].
    unfold length, lambda_c, vp, np.sqrt; simpl. rewrite sqrt_1. lra.
  - exact (X9_after_independent_of_er_and_length scenario scenario_fr4
             valid_inputs_scenario valid_inputs_scenario_fr4
             eq_refl eq_refl eq_refl eq_refl).
Defined.

Lemma Gamma_before_fraction (i : Inputs) (fr : R) :
  valid_inputs i -> choice i = FractionOfLambda fr ->
  Gamma_before i =
    map (fun x => Cx.mul (s11 i)
                    (Cx.mk (cos (4 * PI * fr * x / (fc i * 1e9)))
                           (- sin (4 * PI * fr * x / (fc i * 1e9)))))
        (f i) /\
  at_center i (Gamma_before i) =
    Some (Cx.mul (s11 i) (Cx.mk (cos (4 * PI * fr)) (- sin (4 * PI * fr)))).
Proof.
  intros [Hf Hz He Hr] Hc. pose proof (vp_pos i He) as [Hv _].
  assert (Hl : length i = fr * lambda_c i) by (unfold length; now rewrite Hc).
  assert (Hall : Gamma_before i =
    map (fun x => Cx.mul (s11 i)
                    (Cx.mk (cos (4 * PI * fr * x / (fc i * 1e9)))
                           (- sin (4 * PI * fr * x / (fc i * 1e9)))))
        (f i)).
  { rewrite Gamma_before_eq. unfold gamma, beta. rewrite !map_map.
    apply map_ext. intros x. rewrite rotation_j, Hl.
    replace (2 * (2 * np.pi * x / vp i) * (fr * lambda_c i))
      with (4 * PI * fr * x / (fc i * 1e9))
      by (unfold lambda_c, np.pi; field; lra).
    reflexivity. }
  split; [exact Hall|].
  unfold at_center. rewrite Hall, nth_error_map.
  fold (at_center i (f i)). rewrite at_center_f. cbn [option_map].
  replace (4 * PI * fr * (fc i * 1e9) / (fc i * 1e9)) with (4 * PI * fr)
    by (field; lra).
  reflexivity.
Qed.

(** X10: with the length given as a fraction of the wavelength, the phase
    turned before matching at the sample [x] is [4 pi fraction x / fc],
    whatever the permittivity; at the centre sample it is
    [4 pi fraction]. *)
Theorem X10_before_in_fraction_mode (i : Inputs) (fr : R) :
  valid_inputs i -> choice i = FractionOfLambda fr ->
  Gamma_before i =
    map (fun x => Cx.mul (s11 i)
                    (Cx.mk (cos (4 * PI * fr * x / (fc i * 1e9)))
                           (- sin (4 * PI * fr * x / (fc i * 1e9)))))
        (f i) /\
  at_center i (Gamma_before i) =
    Some (Cx.mul (s11 i) (Cx.mk (cos (4 * PI * fr)) (- sin (4 * PI * fr)))).
Proof. apply Gamma_before_fraction. Qed.

Lemma X10_before_in_fraction_mode_witness :
  (valid_inputs scenario /\ choice scenario = FractionOfLambda 0.25) /\
  at_center scenario (Gamma_before scenario) =
    Some (Cx.mul (s11 scenario)
            (Cx.mk (cos (4 * PI * 0.25)) (- sin (4 * PI * 0.25)))).
Proof.
  split; [split; [exact valid_inputs_scenario | reflexivity]|].
  exact (proj2 (X10_before_in_fraction_mode scenario 0.25
                  valid_inputs_scenario eq_refl)).
Defined.

(** X11: at the centre frequency a line of a whole number of half
    wavelengths leaves the load's reflection coefficient unchanged, and a
    line a quarter wavelength longer negates it. *)
Theorem X11_half_and_quarter_wave_lines (i : Inputs) (n : nat) :
  valid_inputs i ->
  (choice i = FractionOfLambda (INR n / 2) ->
   at_center i (Gamma_before i) = Some (s11 i)) /\
  (choice i = FractionOfLambda (INR n / 2 + 1 / 4) ->
   at_center i (Gamma_before i) = Some (Cx.mul (s11 i) (Cx.of_R (-1)))).
Proof.
  intros Hv. split; intros Hc;
    rewrite (proj2 (Gamma_before_fraction i _ Hv Hc)); f_equal.
  - replace (4 * PI * (INR n / 2)) with (0 + 2 * INR n * PI) by field.
    rewrite cos_period, sin_period, cos_0, sin_0.
    apply Cx_eq; simpl; ring.
  - replace (4 * PI * (INR n / 2 + 1 / 4)) with (PI + 2 * INR n * PI) by field.
    rewrite cos_period, sin_period, cos_PI, sin_PI. f_equal.
    apply Cx_eq; simpl; ring.
Qed.

Lemma X11_half_and_quarter_wave_lines_witness :
  (valid_inputs half_wave_scenario /\ valid_inputs scenario) /\
  at_center half_wave_scenario (Gamma_before half_wave_scenario) =
    Some (s11 half_wave_scenario) /\
  at_center scenario (Gamma_before scenario) =
    Some (Cx.mul (s11 scenario) (Cx.of_R (-1))).
Proof.
  assert (Hh : choice half_wave_scenario = FractionOfLambda (INR 1 / 2))
    by (simpl; f_equal; lra).
  assert (Hq : choice scenario = FractionOfLambda (INR 0 / 2 + 1 / 4))
    by (simpl; f_equal; lra).
  split; [split; [exact valid_inputs_half_wave_scenario
                 | exact valid_inputs_scenario]|].
  split.
  - exact (proj1 (X11_half_and_quarter_wave_lines half_wave_scenario 1
                    valid_inputs_half_wave_scenario) Hh).
  - exact (proj2 (X11_half_and_quarter_wave_lines scenario 0
                    valid_inputs_scenario) Hq).
Defined.

Lemma Zt_depends_on (i i' : Inputs) :
  Z0 i = Z0 i' -> RL i = RL i' -> Rabs (XL i) = Rabs (XL i') -> Zt i = Zt i'.
Proof.
  intros Hz Hr Hx. unfold Zt. rewrite !ZL_eq. unfold Cx.abs; simpl.
  assert (Hsq : XL i * XL i = XL i' * XL i').
  { change (Rsqr (XL i) = Rsqr (XL i')).
    now rewrite (Rsqr_abs (XL i)), (Rsqr_abs (XL i')), Hx. }
  now rewrite Hz, Hr, Hsq.
Qed.

(** X12: the two VSWR arrays depend only on [Z0], [RL] and the size of the
    reactance: two valid inputs that agree on these, whatever their centre
    frequency, permittivity, line length and sign of [XL], give the same
    transformer impedance and the same VSWR before and after matching. *)
Theorem X12_vswr_depends_on_load_only (i i' : Inputs) :
  valid_inputs i -> valid_inputs i' ->
  Z0 i = Z0 i' -> RL i = RL i' -> Rabs (XL i) = Rabs (XL i') ->
  Zt i = Zt i' /\
  VSWR_before i = VSWR_before i' /\
  VSWR_after i = VSWR_after i'.
Proof.
  intros [Hf Hz He Hr] [Hf' Hz' He' Hr'] Ez Er Ex.
  pose proof (Zt_depends_on i i' Ez Er Ex) as Et.
  pose proof (Zt_pos i Hz Hr) as Ht. pose proof (Zt_pos i' Hz' Hr') as Ht'.
  assert (Hsq : XL i * XL i = XL i' * XL i').
  { change (Rsqr (XL i) = Rsqr (XL i')).
    now rewrite (Rsqr_abs (XL i)), (Rsqr_abs (XL i')), Ex. }
  split; [exact Et|]. split.
  - rewrite !VSWR_before_repeat. f_equal. apply vswr_abs_eq.
    change (s11 i) with (load_ref i (Z0 i)).
    change (s11 i') with (load_ref i' (Z0 i')).
    rewrite !load_ref_abs by assumption. now rewrite Ez, Er, Hsq.
  - rewrite !VSWR_after_repeat by assumption. f_equal. apply vswr_abs_eq.
    rewrite !load_ref_abs by assumption. now rewrite Et, Er, Hsq.
Qed.

Lemma X12_vswr_depends_on_load_only_witness :
  (valid_inputs inductive_load /\ valid_inputs capacitive_load /\
   XL inductive_load = - XL capacitive_load) /\
  Zt inductive_load = Zt capacitive_load /\
  VSWR_before inductive_load = VSWR_before capacitive_load /\
  VSWR_after inductive_load = VSWR_after capacitive_load.
Proof.
  assert (Hx : Rabs (XL inductive_load) = Rabs (XL capacitive_load)).
  { simpl. unfold Rabs. repeat destruct Rcase_abs; lra. }
  split.
  - split; [exact valid_inputs_inductive_load|].
    split; [exact valid_inputs_capacitive_load | simpl; lra].
  - exact (X12_vswr_depends_on_load_only inductive_load capacitive_load
             valid_inputs_inductive_load valid_inputs_capacitive_load
             eq_refl eq_refl Hx).
Defined.

Lemma Forall_const_zero_iff {A : Type} (F : A -> R) (c : R) (l : list A) :
  l <> [] -> Forall (fun g => F g = c) l ->
  (Forall (fun g => F g = 0) l <-> c = 0).
Proof.
  intros Hne Hc. split.
  - intros H0. destruct l as [|a l]; [contradiction|].
    inversion Hc; inversion H0; subst. congruence.
  - intros ->. exact Hc.
Qed.

Lemma load_ref_abs_zero_iff (i : Inputs) (z : R) :
  0 < RL i -> 0 < z ->
  (Cx.abs (load_ref i z) = 0 <-> RL i = z /\ XL i = 0).
Proof.
  intros Hr Hz. rewrite load_ref_abs by assumption.
  set (N := (RL i - z) * (RL i - z) + XL i * XL i).
  set (D := (RL i + z) * (RL i + z) + XL i * XL i).
  pose proof (Rle_0_sqr (RL i - z)) as S1. pose proof (Rle_0_sqr (XL i)) as S2.
  pose proof (Rle_0_sqr (RL i + z)) as S3. unfold Rsqr in S1, S2, S3.
  assert (HN : 0 <= N) by (unfold N; lra).
  assert (HD : 0 < sqrt D) by (apply sqrt_lt_R0; unfold D; nra).
  split.
  - intros H.
    assert (Hs : sqrt N = 0).
    { apply (Rmult_eq_reg_r (/ sqrt D)).
      - rewrite Rmult_0_l. exact H.
      - apply Rinv_neq_0_compat. lra. }
    apply sqrt_eq_0 in Hs; [|exact HN]. unfold N in Hs.
    destruct (Rplus_sqr_eq_0 (RL i - z) (XL i) Hs) as [E1 E2]. split; lra.
  - intros [E1 E2]. unfold N. rewrite E1, E2.
    replace ((z - z) * (z - z) + 0 * 0) with 0 by ring.
    rewrite sqrt_0. unfold Rdiv. ring.
Qed.

Lemma Gamma_nonempty (l : list Cx.C) : List.length l = 501%nat -> l <> [].
Proof. intros H E. rewrite E in H. discriminate. Qed.

(** X13: before matching the reflection coefficient vanishes (at every
    sample) exactly when the load is resistive and equal to [Z0]; in that
    case the VSWR array is all ones. *)
Theorem X13_before_zero_iff_matched (i : Inputs) :
  valid_inputs i ->
  (Forall (fun g => Cx.abs g = 0) (Gamma_before i) <->
   RL i = Z0 i /\ XL i = 0) /\
  (RL i = Z0 i /\ XL i = 0 -> VSWR_before i = repeat 1 501).
Proof.
  intros [Hf Hz He Hr].
  pose proof (load_ref_abs_zero_iff i (Z0 i) Hr Hz) as Hiff.
  change (load_ref i (Z0 i)) with (s11 i) in Hiff.
  split.
  - rewrite (Forall_const_zero_iff Cx.abs (Cx.abs (s11 i)));
      [exact Hiff | apply Gamma_nonempty, Gamma_before_length
       | apply Gamma_before_abs].
  - intros Hm. rewrite VSWR_before_repeat. f_equal.
    apply Hiff in Hm. unfold vswr. rewrite Hm. field.
Qed.

Lemma X13_before_zero_iff_matched_witness :
  valid_inputs matched_scenario /\
  Forall (fun g => Cx.abs g = 0) (Gamma_before matched_scenario) /\
  VSWR_before matched_scenario = repeat 1 501.
Proof.
  destruct (X13_before_zero_iff_matched matched_scenario
              valid_inputs_matched_scenario) as [Hiff Hv].
  split; [exact valid_inputs_matched_scenario|].
  split; [apply Hiff | apply Hv]; split; reflexivity.
Defined.

(** X14: the reflection coefficient the script reports after matching
    vanishes (at every sample) exactly when the load is resistive and
    already equal to [Z0]; for every other valid load, real ones included,
    it is nonzero at all 501 samples. *)
Theorem X14_after_zero_iff_matched (i : Inputs) :
  valid_inputs i ->
  (Forall (fun g => Cx.abs g = 0) (Gamma_after i) <->
   RL i = Z0 i /\ XL i = 0) /\
  (RL i = Z0 i /\ XL i = 0 ->
   Zt i = Z0 i /\ VSWR_after i = repeat 1 501) /\
  (~ (RL i = Z0 i /\ XL i = 0) ->
   Forall (fun g => 0 < Cx.abs g) (Gamma_after i)).
Proof.
  intros [Hf Hz He Hr]. pose proof (Zt_pos i Hz Hr) as Ht.
  pose proof (load_ref_abs_zero_iff i (Zt i) Hr Ht) as Hiff.
  assert (Hsq : Zt i * Zt i = Z0 i * Cx.abs (ZL i)).
  { unfold Zt, np.sqrt. apply sqrt_sqrt.
    pose proof (ZL_abs_pos i Hr). nra. }
  assert (Hm : RL i = Zt i /\ XL i = 0 <-> RL i = Z0 i /\ XL i = 0).
  { split; intros [E1 E2]; (split; [|exact E2]);
      rewrite (ZL_abs_real i E2 Hr) in Hsq; nra. }
  rewrite Hm in Hiff.
  assert (Hz0 : Forall (fun g => Cx.abs g = 0) (Gamma_after i) <->
                RL i = Z0 i /\ XL i = 0).
  { rewrite (Forall_const_zero_iff Cx.abs (Cx.abs (load_ref i (Zt i))));
      [exact Hiff | now apply Gamma_nonempty, Gamma_after_length
       | now apply Gamma_after_abs]. }
  split; [exact Hz0|]. split.
  - intros Hmatched. split; [apply Hm in Hmatched; lra|].
    rewrite VSWR_after_repeat by assumption. f_equal.
    apply Hiff in Hmatched. unfold vswr. rewrite Hmatched. field.
  - intros Hnot. eapply Forall_impl; [|now apply Gamma_after_abs].
    intros g ->. pose proof (Cx_abs_nonneg (load_ref i (Zt i))) as H0.
    destruct (Req_dec (Cx.abs (load_ref i (Zt i))) 0) as [E|E]; [|lra].
    exfalso. apply Hnot. now apply Hiff.
Qed.

Lemma X14_after_zero_iff_matched_witness :
  (valid_inputs matched_scenario /\ valid_inputs scenario) /\
  Forall (fun g => Cx.abs g = 0) (Gamma_after matched_scenario) /\
  VSWR_after matched_scenario = repeat 1 501 /\
  Forall (fun g => 0 < Cx.abs g) (Gamma_after scenario).
Proof.
  destruct (X14_after_zero_iff_matched matched_scenario
              valid_inputs_matched_scenario) as (Hiff & Hv & _).
  destruct (X14_after_zero_iff_matched scenario valid_inputs_scenario)
    as (_ & _ & Hnz).
  split; [split; [exact valid_inputs_matched_scenario
                 | exact valid_inputs_scenario]|].
  split; [apply Hiff; split; reflexivity|].
  split; [apply Hv; split; reflexivity|].
  apply Hnz. simpl. intros [E _]. lra.
Defined.

(** The VSWR of the load on the reference [z] is at most
    [|ZL + z|^2 / (RL z)]. *)
Lemma vswr_load_ref_bound (i : Inputs) (z : R) :
  0 < RL i -> 0 < z ->
  vswr (load_ref i z) <=
  ((RL i + z) * (RL i + z) + XL i * XL i) / (RL i * z).
Proof.
  intros Hr Hz. destruct (load_ref_abs_lt_1 i z Hr Hz) as [_ Hlt].
  pose proof (Cx_abs_nonneg (load_ref i z)) as H0.
  pose proof (load_ref_abs i z Hr Hz) as Ha.
  set (a := Cx.abs (load_ref i z)) in *.
  pose proof (Rle_0_sqr (RL i - z)) as S1. pose proof (Rle_0_sqr (XL i)) as S2.
  pose proof (Rle_0_sqr (RL i + z)) as S3. unfold Rsqr in S1, S2, S3.
  assert (Hrz : 0 < RL i * z) by (apply Rmult_lt_0_compat; assumption).
  set (N := (RL i - z) * (RL i - z) + XL i * XL i) in *.
  set (D := (RL i + z) * (RL i + z) + XL i * XL i) in *.
  assert (HD : 0 < D) by (unfold D; nra).
  assert (HN : 0 <= N) by (unfold N; lra).
  assert (HDN : D - N = 4 * (RL i * z)) by (unfold D, N; ring).
  assert (Hsq : a * a * D = N).
  { rewrite Ha. unfold Rdiv.
    replace (sqrt N * / sqrt D * (sqrt N * / sqrt D) * D)
      with ((sqrt N * sqrt N) * ((sqrt D * sqrt D) * (/ sqrt D * / sqrt D)))
      by (rewrite (sqrt_sqrt D) by lra; ring).
    rewrite sqrt_sqrt by exact HN.
    assert (HsD : 0 < sqrt D) by (apply sqrt_lt_R0; exact HD).
    field. lra. }
  set (K := D / (RL i * z)).
  assert (HK : K * (RL i * z) = D) by (unfold K; field; lra).
  assert (HK0 : 0 < K) by (unfold K; apply Rdiv_lt_0_compat; assumption).
  assert (Hprod : K * (1 - a) * (1 + a) = 4).
  { apply (Rmult_eq_reg_r (RL i * z)); [|lra].
    replace (K * (1 - a) * (1 + a) * (RL i * z))
      with (K * (RL i * z) - a * a * (K * (RL i * z))) by ring.
    rewrite HK, Hsq. lra. }
  unfold vswr. fold a.
  apply (Rmult_le_reg_r (1 - a)); [lra|].
  unfold Rdiv at 1. rewrite Rmult_assoc, Rinv_l, Rmult_1_r by lra.
  destruct (Rle_or_lt (1 + a) (K * (1 - a))) as [Hle|Hgt]; [exact Hle|].
  exfalso.
  assert (Hlt4 : K * (1 - a) * (1 + a) < (1 + a) * (1 + a)).
  { apply Rmult_lt_compat_r; lra. }
  nra.
Qed.

(** X15: on the sidebar's ranges the VSWR stays bounded although nothing in
    the script caps it: every sample is at most 2.5e7 before matching and
    at most 1.2e8 after, and the transformer impedance lies between 0.3 and
    750 ohm. *)
Theorem X15_vswr_bounded_on_widget_ranges (i : Inputs) :
  widget_ranges i ->
  0.3 <= Zt i <= 750 /\
  Forall (fun v => 1 <= v <= 2.5e7) (VSWR_before i) /\
  Forall (fun v => 1 <= v <= 1.2e8) (VSWR_after i).
Proof.
  intros Hw. pose proof (widget_ranges_positive i Hw) as [Hf Hz He Hr].
  destruct Hw as [_ Hz0 _ Hrl Hxl _].
  pose proof (Rle_0_sqr (XL i)) as Sx. unfold Rsqr in Sx.
  assert (Hx2 : XL i * XL i <= 250000) by nra.
  (* the modulus of the load impedance *)
  assert (Hab : RL i <= Cx.abs (ZL i) <= 1120).
  { rewrite ZL_eq. unfold Cx.abs; simpl. split.
    - rewrite <- (sqrt_square (RL i)) at 1 by lra. apply sqrt_le_1; nra.
    - rewrite <- (sqrt_square 1120) by lra. apply sqrt_le_1; nra. }
  assert (Ht : 0.3 <= Zt i <= 750).
  { unfold Zt, np.sqrt. split.
    - rewrite <- (sqrt_square 0.3) by lra. apply sqrt_le_1; nra.
    - rewrite <- (sqrt_square 750) by lra. apply sqrt_le_1; nra. }
  split; [exact Ht|].
  assert (Hb : 1 <= vswr (s11 i) <= 2.5e7).
  { change (s11 i) with (load_ref i (Z0 i)). split.
    - apply vswr_ge_1. now apply load_ref_abs_lt_1.
    - eapply Rle_trans; [now apply vswr_load_ref_bound|].
      assert (0.1 <= RL i * Z0 i) by nra.
      apply (Rmult_le_reg_r (RL i * Z0 i)); [lra|].
      unfold Rdiv. rewrite Rmult_assoc, Rinv_l by lra. nra. }
  assert (Ha : 1 <= vswr (load_ref i (Zt i)) <= 1.2e8).
  { split.
    - apply vswr_ge_1. apply load_ref_abs_lt_1; lra.
    - eapply Rle_trans; [apply vswr_load_ref_bound; lra|].
      assert (0.03 <= RL i * Zt i) by nra.
      apply (Rmult_le_reg_r (RL i * Zt i)); [lra|].
      unfold Rdiv. rewrite Rmult_assoc, Rinv_l by lra. nra. }
  split.
  - rewrite VSWR_before_repeat. apply Forall_forall.
    intros v Hv. apply repeat_spec in Hv. now subst.
  - rewrite VSWR_after_repeat by assumption. apply Forall_forall.
    intros v Hv. apply repeat_spec in Hv. now subst.
Qed.

Lemma X15_vswr_bounded_on_widget_ranges_witness :
  widget_ranges scenario /\
  0.3 <= Zt scenario <= 750 /\
  Forall (fun v => 1 <= v <= 2.5e7) (VSWR_before scenario) /\
  Forall (fun v => 1 <= v <= 1.2e8) (VSWR_after scenario).
Proof.
  split; [exact widget_ranges_scenario|].
  exact (X15_vswr_bounded_on_widget_ranges scenario widget_ranges_scenario).
Defined.

(** X16: with the length given in metres, the phase turned before matching
    at the sample [x] is [4 pi x m sqrt(er) / 3e8], growing with the square
    root of the permittivity; when the length entered is the starting value
    [lambda_c / 4], the reflection coefficient at the centre sample is the
    load's, negated. *)
Theorem X16_before_in_metres_mode (i : Inputs) (m : R) :
  valid_inputs i -> choice i = LengthInMeters m ->
  Gamma_before i =
    map (fun x => Cx.mul (s11 i)
                    (Cx.mk (cos (4 * PI * x * m * sqrt (er i) / 3e8))
                           (- sin (4 * PI * x * m * sqrt (er i) / 3e8))))
        (f i) /\
  (m = length_default i ->
   at_center i (Gamma_before i) = Some (Cx.mul (s11 i) (Cx.of_R (-1)))).
Proof.
  intros [Hf Hz He Hr] Hc. pose proof (vp_pos i He) as [Hv _].
  assert (Hl : length i = m) by (unfold length; now rewrite Hc).
  assert (Hs : 1 <= sqrt (er i)).
  { rewrite <- sqrt_1 at 1. apply sqrt_le_1; lra. }
  split.
  - rewrite Gamma_before_eq. unfold gamma, beta. rewrite !map_map.
    apply map_ext. intros x. rewrite rotation_j, Hl.
    replace (2 * (2 * np.pi * x / vp i) * m)
      with (4 * PI * x * m * sqrt (er i) / 3e8)
      by (unfold vp, np.pi, np.sqrt; field; lra).
    reflexivity.
  - intros Hm. rewrite at_center_Gamma_before, Hl, Hm. f_equal. f_equal.
    apply rotation_quarter_wave; assumption.
Qed.

Lemma valid_inputs_default_metres_scenario :
  valid_inputs default_metres_scenario.
Proof. constructor; simpl; lra. Qed.

Lemma length_default_metres_scenario :
  0.03125 = length_default default_metres_scenario.
Proof.
  unfold length_default, lambda_c, vp, np.sqrt; simpl. rewrite sqrt_1. lra.
Qed.

Lemma X16_before_in_metres_mode_witness :
  (valid_inputs scenario_fr4 /\
   choice scenario_fr4 = LengthInMeters 0.02 /\
   valid_inputs default_metres_scenario /\
   choice default_metres_scenario = LengthInMeters 0.03125) /\
  Gamma_before scenario_fr4 =
    map (fun x => Cx.mul (s11 scenario_fr4)
                    (Cx.mk (cos (4 * PI * x * 0.02 * sqrt 4.5 / 3e8))
                           (- sin (4 * PI * x * 0.02 * sqrt 4.5 / 3e8))))
        (f scenario_fr4) /\
  at_center default_metres_scenario (Gamma_before default_metres_scenario) =
    Some (Cx.mul (s11 default_metres_scenario) (Cx.of_R (-1))).
Proof.
  split.
  - split; [exact valid_inputs_scenario_fr4|]. split; [reflexivity|].
    split; [exact valid_inputs_default_metres_scenario | reflexivity].
  - split.
    + exact (proj1 (X16_before_in_metres_mode scenario_fr4 0.02
                      valid_inputs_scenario_fr4 eq_refl)).
    + exact (proj2 (X16_before_in_metres_mode default_metres_scenario 0.03125
                      valid_inputs_default_metres_scenario eq_refl)
               length_default_metres_scenario).
Defined.
